(** * Happy-Hour-Finder: the targeted crawler of [scraper_simple.py]

    A shallow embedding of the relevance scorer ([score_url]), the link
    ranking ([find_related_pages]), the PDF helper
    ([extract_text_from_pdf_url]), the crawl loop ([scrape_with_crawl]) and
    the candidate selection that follows it, with the properties of the
    design document stated and proved over them.

    Conventions.
    - A Python [str] is a [string]: a sequence of 8-bit characters, read as
      the code points U+0000..U+00FF.  Code points above U+00FF are outside
      the model.
    - A Python [int] is a [Z].
    - [set()] of strings is a [gset string]; a Python list is a [list].
    - The network, the HTML parser, [urljoin]/[urlparse] and pdfminer are
      collaborators: they are fields of a [Site] record, and a raised
      exception is the [None] of an [option]. *)

From Stdlib Require Import ZArith Ascii String List Lia.
From stdpp Require Import base tactics option list strings gmap sets.

Local Open Scope string_scope.
Local Open Scope Z_scope.
Local Open Scope list_scope.

(** ** Python string primitives *)

Module PyStr.

(** [c.lower()] on one code point below U+0100: A-Z and the Latin-1 capitals
    U+00C0..U+00DE (U+00D7, the multiplication sign, apart) move up by 32. *)
Definition lower_char (c : ascii) : ascii :=
  let n := N_of_ascii c in
  if ((65 <=? n) && (n <=? 90))%N then ascii_of_N (n + 32)
  else if ((192 <=? n) && (n <=? 222) && negb (n =? 215))%N then ascii_of_N (n + 32)
  else c.

(** [s.lower()] *)
Fixpoint lower (s : string) : string :=
  match s with
  | EmptyString => EmptyString
  | String c s' => String (lower_char c) (lower s')
  end.

(** [s.startswith(p)] *)
Fixpoint startswith (s p : string) {struct p} : bool :=
  match p, s with
  | EmptyString, _ => true
  | String _ _, EmptyString => false
  | String a p', String b s' => if Ascii.eqb a b then startswith s' p' else false
  end.

(** [k in s]: [k] occurs in [s] at some position. *)
Fixpoint contains (k s : string) : bool :=
  startswith s k ||
  match s with
  | EmptyString => false
  | String _ s' => contains k s'
  end.

(** [s.endswith(suf)]: some tail of [s] is [suf]. *)
Fixpoint endswith (s suf : string) : bool :=
  String.eqb s suf ||
  match s with
  | EmptyString => false
  | String _ s' => endswith s' suf
  end.

(** [s[:n]] for [n >= 0] *)
Fixpoint slice_to (n : nat) (s : string) : string :=
  match n, s with
  | O, _ => EmptyString
  | S _, EmptyString => EmptyString
  | S n', String c s' => String c (slice_to n' s')
  end.

(** [bool(s)]: a string is truthy when it is not empty. *)
Definition truthy (s : string) : bool :=
  match s with EmptyString => false | String _ _ => true end.

(** The mathematical notions the boolean tests decide. *)
Definition Prefix (p s : string) : Prop := exists r, s = p +:+ r.
Definition Substring (k s : string) : Prop := exists p r, s = p +:+ k +:+ r.
Definition Suffix (suf s : string) : Prop := exists p, s = p +:+ suf.

End PyStr.

(** ** 4.1 Relevance scorer *)

(** The [keywords] dict of [score_url], in insertion order (the order in
    which a Python dict iterates). *)
Definition keywords : list (string * Z) :=
  [ ("happy", 5); ("hour", 5); ("special", 3); ("deal", 3);
    ("menu", 2); ("drink", 2); ("food", 1) ].

(** [score_url]: the loop [for k, v in keywords.items()] is a left fold over
    the table with the accumulator [score]; the suffix test is on the whole
    lower-cased argument. *)
Definition score_url (url : string) : Z :=
  let lower := PyStr.lower url in
  let score :=
    fold_left (fun score kv => if PyStr.contains (fst kv) lower then score + snd kv else score)
              keywords 0 in
  if PyStr.endswith lower ".pdf" then score + 4 else score.

(** ** URL components

    [urlparse] of the standard library is a collaborator.  Its [netloc] is a
    field of [Site] below.  The design document also speaks of "the URL's
    path"; [Url.path] is that notion, following the generic URL syntax the
    way [urllib.parse.urlsplit] splits it: an optional [scheme:], an
    optional [//authority] that runs up to the first [/], [?] or [#], then
    the path, which stops at the first [?] or [#]. *)

Module Url.

Definition is_alpha (c : ascii) : bool :=
  let n := N_of_ascii c in
  (((65 <=? n) && (n <=? 90)) || ((97 <=? n) && (n <=? 122)))%N.

Definition is_scheme_char (c : ascii) : bool :=
  let n := N_of_ascii c in
  (is_alpha c || ((48 <=? n) && (n <=? 57)) || (n =? 43) || (n =? 45) || (n =? 46))%N.

(** [span p s]: the longest prefix of [s] whose characters all satisfy [p],
    and what follows it. *)
Fixpoint span (p : ascii -> bool) (s : string) : string * string :=
  match s with
  | EmptyString => (EmptyString, EmptyString)
  | String c s' =>
      if p c then let '(a, b) := span p s' in (String c a, b)
      else (EmptyString, s)
  end.

Definition is_char (c : ascii) : ascii -> bool := fun x => Ascii.eqb x c.

(** Drop a leading [scheme:] when there is one. *)
Definition strip_scheme (url : string) : string :=
  let '(before, rest) := span (fun c => negb (is_char ":" c)) url in
  match before, rest with
  | String c0 _, String _ after =>
      if is_alpha c0 && String.eqb (fst (span is_scheme_char before)) before then after else url
  | _, _ => url
  end.

(** Drop a leading [//authority]. *)
Definition strip_authority (s : string) : string :=
  if PyStr.startswith s "//" then
    match s with
    | String _ (String _ s') =>
        snd (span (fun c => negb (is_char "/" c || is_char "?" c || is_char "#" c)) s')
    | _ => s
    end
  else s.

Definition path (url : string) : string :=
  fst (span (fun c => negb (is_char "?" c || is_char "#" c))
            (strip_authority (strip_scheme url))).

End Url.

(** ** Collaborators *)

(** One web site as the crawler sees it.  Every field is a call the source
    makes into a library; [None] is a raised exception.
    - [requests_get u]: [requests.get(u, ...)] followed by
      [raise_for_status()], giving [response.content];
    - [html_parse content]: [extract_text_from_html(content)], giving the
      cleaned text and, for the soup it returns, the [href] of every anchor
      of [soup.find_all('a', href=True)] in document order;
    - [urljoin b h]: [urljoin(b, h)]; [None] is a [ValueError] of [urljoin]
      or of the [urlparse] call that follows it in both link loops;
    - [netloc u]: [urlparse(u).netloc];
    - [extract_pdf_text]: pdfminer's [extract_text], [None] when the import
      at the top of the module failed. *)
Record Site := {
  requests_get : string -> option string;
  html_parse : string -> option (string * list string);
  urljoin : string -> string -> option string;
  netloc : string -> string;
  extract_pdf_text : option (string -> option string)
}.

(** The iteration order of [set(candidates)].  A Python set of strings
    iterates in an order fixed by the strings' hashes, which are salted per
    process: all the language promises is that every element comes exactly
    once. *)
Record SetOrder := {
  set_iter :> list string -> list string;
  set_iter_NoDup : forall l, NoDup (set_iter l);
  set_iter_elem : forall l x, x ∈ set_iter l <-> x ∈ l
}.

(** ** Ranking of the entry page's links *)

(** [sorted(l, key=key, reverse=True)]: descending by key, and stable (equal
    keys keep the order they have in [l]). *)
Fixpoint insert_desc (key : string -> Z) (x : string) (l : list string) : list string :=
  match l with
  | [] => [x]
  | y :: l' => if key x <? key y then y :: insert_desc key x l' else x :: y :: l'
  end.

Fixpoint sorted_desc (key : string -> Z) (l : list string) : list string :=
  match l with
  | [] => []
  | x :: l' => insert_desc key x (sorted_desc key l')
  end.

(** The first loop of [find_related_pages]: resolve every href against
    [base_url] and keep the links whose netloc is [domain].  An exception in
    [urljoin] leaves the function. *)
Fixpoint same_domain_links (site : Site) (base_url domain : string)
    (hrefs : list string) : option (list string) :=
  match hrefs with
  | [] => Some []
  | href :: hrefs' =>
      match urljoin site base_url href with
      | None => None
      | Some absolute_url =>
          match same_domain_links site base_url domain hrefs' with
          | None => None
          | Some candidates =>
              if decide (netloc site absolute_url <> domain) then Some candidates
              else Some (absolute_url :: candidates)
          end
      end
  end.

Definition find_related_pages (site : Site) (order : SetOrder)
    (hrefs : list string) (base_url : string) : option (list string) :=
  let domain := netloc site base_url in
  match same_domain_links site base_url domain hrefs with
  | None => None
  | Some candidates =>
      let ranked := sorted_desc score_url (order candidates) in
      Some (take 3 (filter (fun u => 0 < score_url u) ranked))
  end.

(** [extract_text_from_pdf_url]: every exception, and a missing pdfminer,
    give the empty string. *)
Definition extract_text_from_pdf_url (site : Site) (url : string) : string :=
  match requests_get site url with
  | None => EmptyString
  | Some content =>
      match extract_pdf_text site with
      | Some extract =>
          match extract content with
          | Some text => text
          | None => EmptyString
          end
      | None => EmptyString
      end
  end.

(** ** 4.3 Crawl orchestrator *)

(** A snippet is the pair [(url, text)] appended to [all_snippets]. *)
Definition snippet : Type := string * string.

(** The three local variables of [scrape_with_crawl] that the loop mutates. *)
Record crawl_state := {
  visited : gset string;
  urls_to_visit : list string;
  all_snippets : list snippet
}.

Definition max_pages : nat := 6.

(** State on entry to the [while] loop. *)
Definition init_state (base_url : string) : crawl_state :=
  {| visited := ∅; urls_to_visit := [base_url]; all_snippets := [] |}.

(** The loop condition [urls_to_visit and len(visited) < max_pages]. *)
Definition loop_cond (st : crawl_state) : bool :=
  match urls_to_visit st with
  | [] => false
  | _ :: _ => bool_decide (size (visited st) < max_pages)%nat
  end.

(** [if r not in visited and r not in urls_to_visit: urls_to_visit.append(r)] *)
Definition enqueue (seen : gset string) (queue : list string) (r : string) : list string :=
  if decide ((r ∉ seen) /\ (r ∉ queue)) then queue ++ [r] else queue.

(** Entry page: [for r in related: ...]. *)
Definition enqueue_related (seen : gset string) (related queue : list string) : list string :=
  fold_left (enqueue seen) related queue.

(** Later pages: the loop over the anchors of the page.  An exception in
    [urljoin] leaves the loop through the [except] clause, and what was
    appended before it stays in the queue. *)
Fixpoint enqueue_links (site : Site) (base_url current_url : string)
    (seen : gset string) (hrefs queue : list string) : list string :=
  match hrefs with
  | [] => queue
  | href :: hrefs' =>
      match urljoin site current_url href with
      | None => queue
      | Some absolute_url =>
          let queue' :=
            if decide (netloc site absolute_url = netloc site base_url /\ (absolute_url ∉ seen)) then
              if decide (0 < score_url absolute_url /\ (absolute_url ∉ queue))
              then queue ++ [absolute_url] else queue
            else queue in
          enqueue_links site base_url current_url seen hrefs' queue'
      end
  end.

(** One iteration of the [while] loop, from the [pop(0)] to the next test of
    the condition. *)
Definition loop_body (site : Site) (order : SetOrder) (base_url : string)
    (st : crawl_state) : crawl_state :=
  match urls_to_visit st with
  | [] => st
  | current_url :: queue =>
      if decide (current_url ∈ visited st) then
        {| visited := visited st; urls_to_visit := queue; all_snippets := all_snippets st |}
      else
        let seen := visited st ∪ {[ current_url ]} in
        if PyStr.endswith (PyStr.lower current_url) ".pdf" then
          let pdf_text := extract_text_from_pdf_url site current_url in
          {| visited := seen; urls_to_visit := queue;
             all_snippets :=
               if PyStr.truthy pdf_text then all_snippets st ++ [(current_url, pdf_text)]
               else all_snippets st |}
        else
          match requests_get site current_url with
          | None => {| visited := seen; urls_to_visit := queue; all_snippets := all_snippets st |}
          | Some content =>
              match html_parse site content with
              | None =>
                  {| visited := seen; urls_to_visit := queue; all_snippets := all_snippets st |}
              | Some (text, hrefs) =>
                  let snippets := all_snippets st ++ [(current_url, text)] in
                  if decide (current_url = base_url) then
                    match find_related_pages site order hrefs base_url with
                    | None =>
                        {| visited := seen; urls_to_visit := queue; all_snippets := snippets |}
                    | Some related =>
                        {| visited := seen;
                           urls_to_visit := enqueue_related seen related queue;
                           all_snippets := snippets |}
                    end
                  else
                    {| visited := seen;
                       urls_to_visit := enqueue_links site base_url current_url seen hrefs queue;
                       all_snippets := snippets |}
              end
          end
  end.

(** The [while] loop.  [fuel] bounds the number of iterations; [None] means
    the bound was reached with the condition still true. *)
Fixpoint crawl_loop (site : Site) (order : SetOrder) (base_url : string)
    (fuel : nat) (st : crawl_state) : option crawl_state :=
  if loop_cond st then
    match fuel with
    | O => None
    | S fuel' => crawl_loop site order base_url fuel' (loop_body site order base_url st)
    end
  else Some st.

Definition scrape_with_crawl (site : Site) (order : SetOrder) (fuel : nat)
    (base_url : string) : option (list snippet) :=
  all_snippets <$> crawl_loop site order base_url fuel (init_state base_url).

(** The states the loop can be in when its condition is tested. *)
Inductive reachable (site : Site) (order : SetOrder) (base_url : string)
  : crawl_state -> Prop :=
| reach_init : reachable site order base_url (init_state base_url)
| reach_step st :
    reachable site order base_url st ->
    loop_cond st = true ->
    reachable site order base_url (loop_body site order base_url st).

(** ** 4.4 Candidate selector *)

(** The fragment of Python's [re] that [HAPPY_HOUR_REGEX] is written in, with
    the matching order of the backtracking engine: an alternation tries its
    left branch first, a greedy repetition the longest run first, a lazy one
    the shortest first, and the first way to complete the whole pattern
    wins.  The matcher is in continuation-passing style: [k] is the rest of
    the pattern and the result is the input left after the whole match. *)
Module Re.

Inductive re : Type :=
| Eps
| Chr (p : ascii -> bool)
| Cat (a b : re)
| Alt (a b : re)
| Opt (a : re)
| Rep (greedy : bool) (lo : nat) (hi : option nat) (p : ascii -> bool).

Definition can_more (hi : option nat) : bool :=
  match hi with Some O => false | _ => true end.

Definition one_less (hi : option nat) : option nat :=
  match hi with Some n => Some (Nat.pred n) | None => None end.

Fixpoint rep_greedy (p : ascii -> bool) (k : string -> option string)
    (lo : nat) (hi : option nat) (s : string) {struct s} : option string :=
  let stop := match lo with O => k s | S _ => None end in
  match s with
  | String c s' =>
      if p c && can_more hi then
        match rep_greedy p k (Nat.pred lo) (one_less hi) s' with
        | Some r => Some r
        | None => stop
        end
      else stop
  | EmptyString => stop
  end.

Fixpoint rep_lazy (p : ascii -> bool) (k : string -> option string)
    (lo : nat) (hi : option nat) (s : string) {struct s} : option string :=
  let more :=
    match s with
    | String c s' =>
        if p c && can_more hi then rep_lazy p k (Nat.pred lo) (one_less hi) s' else None
    | EmptyString => None
    end in
  match lo with
  | O => match k s with Some r => Some r | None => more end
  | S _ => more
  end.

Fixpoint exec (r : re) (k : string -> option string) (s : string) : option string :=
  match r with
  | Eps => k s
  | Chr p =>
      match s with
      | String c s' => if p c then k s' else None
      | EmptyString => None
      end
  | Cat a b => exec a (exec b k) s
  | Alt a b => match exec a k s with Some r => Some r | None => exec b k s end
  | Opt a => match exec a k s with Some r => Some r | None => k s end
  | Rep true lo hi p => rep_greedy p k lo hi s
  | Rep false lo hi p => rep_lazy p k lo hi s
  end.

(** [pattern.match(s)] anchored at the start of [s]: what is left of [s]
    after the match. *)
Definition match_prefix (r : re) (s : string) : option string := exec r Some s.

(** [[m.group(0) for m in pattern.finditer(s)]]: scan left to right; after a
    match the scan resumes where the match ended.  [skip] counts the
    characters of the last match that are still to be passed over. *)
Fixpoint finditer_from (r : re) (skip : nat) (s : string) : list string :=
  match skip with
  | S skip' =>
      match s with
      | String _ s' => finditer_from r skip' s'
      | EmptyString => []
      end
  | O =>
      match match_prefix r s with
      | Some rest =>
          let len := (String.length s - String.length rest)%nat in
          PyStr.slice_to len s ::
            match s with
            | String _ s' => finditer_from r (Nat.pred len) s'
            | EmptyString => []
            end
      | None =>
          match s with
          | String _ s' => finditer_from r O s'
          | EmptyString => []
          end
      end
  end.

Definition finditer (r : re) (s : string) : list string := finditer_from r O s.

(** Character classes, under [re.IGNORECASE | re.DOTALL]. *)

(** A literal character of the pattern, compared without case. *)
Definition lit (c : ascii) : re :=
  Chr (fun x => Ascii.eqb (PyStr.lower_char x) (PyStr.lower_char c)).

Fixpoint lits (s : string) : re :=
  match s with
  | EmptyString => Eps
  | String c s' => Cat (lit c) (lits s')
  end.

(** [\d] *)
Definition digit (c : ascii) : bool :=
  let n := N_of_ascii c in ((48 <=? n) && (n <=? 57))%N.

(** [\s]: the white space of [str.isspace] below U+0100. *)
Definition space (c : ascii) : bool :=
  let n := N_of_ascii c in
  (((9 <=? n) && (n <=? 13)) || ((28 <=? n) && (n <=? 32)) || (n =? 133) || (n =? 160))%N.

(** [.] with [re.DOTALL] *)
Definition any (c : ascii) : bool := true.

(** The class written between the two clock times: a hyphen, an en dash, [t]
    and [o], the letters without case.  The en dash is U+2013, which no
    8-bit character is. *)
Definition dash_t_o (c : ascii) : bool :=
  let x := PyStr.lower_char c in
  Ascii.eqb x "-" || Ascii.eqb x "t" || Ascii.eqb x "o".

Fixpoint seq (rs : list re) : re :=
  match rs with
  | [] => Eps
  | r :: rs' => Cat r (seq rs')
  end.

(** A sufficient test for "every match of [r] takes at least one
    character". *)
Fixpoint nonempty (r : re) : bool :=
  match r with
  | Eps => false
  | Chr _ => true
  | Cat a b => nonempty a || nonempty b
  | Alt a b => nonempty a && nonempty b
  | Opt _ => false
  | Rep _ lo _ _ => match lo with O => false | S _ => true end
  end.

End Re.

(** [\d{1,2}(?::\d{2})?] *)
Definition clock_re : Re.re :=
  Re.Cat (Re.Rep true 1 (Some 2%nat) Re.digit)
         (Re.Opt (Re.Cat (Re.lit ":") (Re.Rep true 2 (Some 2%nat) Re.digit))).

(** [(am|pm)?] *)
Definition am_pm_re : Re.re := Re.Opt (Re.Alt (Re.lits "am") (Re.lits "pm")).

(** [\s*] *)
Definition spaces_re : Re.re := Re.Rep true 0 None Re.space.

(** [HAPPY_HOUR_REGEX]. *)
Definition HAPPY_HOUR_REGEX : Re.re :=
  Re.seq
    [ Re.Alt (Re.lits "happy hour") (Re.lits "hh");
      Re.Rep false 0 None Re.any;
      clock_re; spaces_re; am_pm_re; spaces_re;
      Re.Rep true 1 None Re.dash_t_o;
      spaces_re; clock_re; spaces_re; am_pm_re ].

(** A candidate is the dict [{"url": u, "text": excerpt}]. *)
Record candidate := { url : string; text : string }.

(** The first loop over the snippets: one candidate per match. *)
Definition regex_candidates (snippets : list snippet) : list candidate :=
  flat_map (fun s => map (fun excerpt => {| url := fst s; text := excerpt |})
                         (Re.finditer HAPPY_HOUR_REGEX (snd s)))
           snippets.

(** [candidates] after the fallback [if not candidates: ...]. *)
Definition candidates (snippets : list snippet) : list candidate :=
  match regex_candidates snippets with
  | [] => map (fun s => {| url := fst s; text := PyStr.slice_to 2000 (snd s) |}) snippets
  | c :: cs => c :: cs
  end.

Definition newline : string := String (ascii_of_N 10) EmptyString.

(** [prompt_blocks]: the blocks built from [candidates[:8]]. *)
Definition prompt_blocks (snippets : list snippet) : list string :=
  map (fun c => "URL: " +:+ url c +:+ newline +:+ "---" +:+ newline +:+ text c)
      (take 8 (candidates snippets)).

(** ** The design document's wording, for comparison *)

Definition Zsum (l : list Z) : Z := foldr Z.add 0 l.

(** The scorer as the design document words it: the keyword weights, and
    the bonus of 4 when "the URL's path ends with .pdf (case-insensitive)". *)
Definition score_as_specified (url : string) : Z :=
  Zsum (map (fun kv => if PyStr.contains (fst kv) (PyStr.lower url) then snd kv else 0)
            keywords)
  + (if PyStr.endswith (PyStr.lower (Url.path url)) ".pdf" then 4 else 0).


(** ** A small site, for the examples *)

Module Demo.

Definition home : string := "https://site.com/".

(** The pages of the site: URL, cleaned text, hrefs of the anchors. *)
Definition pages : list (string * (string * list string)) :=
  [ ("https://site.com/",
     ("Welcome", ["/menu-a"; "/menu-b"; "/menu-c"; "/menu-d";
                  "https://other.com/happy-hour"; "/about"]));
    ("https://site.com/menu-a", ("Happy Hour runs 3pm-6pm daily", ["/specials.pdf"; "/"]));
    ("https://site.com/menu-b", ("Lunch from 11", []));
    ("https://site.com/menu-c", ("Dinner", []));
    ("https://site.com/menu-d", ("Happy hour 4 to 7", []));
    ("https://site.com/menu.pdf?v=2", ("Menu viewer", ["/happy-hour"])) ].

Fixpoint lookup_page (u : string) (l : list (string * (string * list string)))
  : option (string * list string) :=
  match l with
  | [] => None
  | (u', page) :: l' => if String.eqb u u' then Some page else lookup_page u l'
  end.

Definition host_of (u : string) : string :=
  if PyStr.startswith u "https://site.com/" then "site.com"
  else if PyStr.startswith u "https://other.com/" then "other.com"
  else EmptyString.

(** A response body stands for the URL it was served from. *)
Definition site : Site := {|
  requests_get u := Some u;
  html_parse content := lookup_page content pages;
  urljoin b href :=
    Some (if PyStr.startswith href "/" then "https://site.com" +:+ href else href);
  netloc := host_of;
  extract_pdf_text :=
    Some (fun content =>
            if String.eqb content "https://site.com/specials.pdf"
            then Some "Happy Hour 4-7pm Mon-Fri $5 beers" else None)
|}.

(** The same site with the network down. *)
Definition offline : Site := {|
  requests_get u := None;
  html_parse content := lookup_page content pages;
  urljoin := urljoin site;
  netloc := host_of;
  extract_pdf_text := None
|}.

(** Two iteration orders a set can have: the order of insertion, and its
    reverse. *)
Definition discovery_order : SetOrder := {|
  set_iter := remove_dups;
  set_iter_NoDup := NoDup_remove_dups;
  set_iter_elem := elem_of_remove_dups
|}.

Definition reverse_order : SetOrder := {|
  set_iter l := reverse (remove_dups l);
  set_iter_NoDup l :=
    proj2 (NoDup_Permutation_proper _ _ (reverse_Permutation (remove_dups l)))
          (NoDup_remove_dups l);
  set_iter_elem l x :=
    iff_trans (elem_of_reverse x (remove_dups l)) (elem_of_remove_dups l x)
|}.

End Demo.

(** A site with an href that [urljoin] rejects ([//[] opens an IPv6 literal
    that is never closed). *)
Module Flaky.

Definition home : string := "https://site.com/".

Definition pages : list (string * (string * list string)) :=
  [ ("https://site.com/", ("Welcome", ["/happy-hour"; "//["; "/specials"]));
    ("https://site.com/happy-hour", ("Happy hour 4-6pm", ["/drinks"; "//["; "/menu"])) ].

Definition site : Site := {|
  requests_get u := Some u;
  html_parse content := Demo.lookup_page content pages;
  urljoin b href :=
    if String.eqb href "//[" then None
    else Some (if PyStr.startswith href "/" then "https://site.com" +:+ href else href);
  netloc := Demo.host_of;
  extract_pdf_text := None
|}.

End Flaky.

(** A site on which one page of the middle of the crawl cannot be fetched,
    and whose entry-page links all have different scores. *)
Module Patchy.

Definition home : string := "https://site.com/".

Definition pages : list (string * (string * list string)) :=
  [ ("https://site.com/",
     ("Welcome", ["/about"; "/menu"; "/happy-hour"; "/food"; "/specials"]));
    ("https://site.com/specials", ("Happy hour 4 to 7", ["/drinks"; "/menu"; "/specials"]));
    ("https://site.com/menu", ("Lunch from 11", []));
    ("https://site.com/drinks", ("Drinks", [])) ].

(** [https://site.com/happy-hour] answers with an error status. *)
Definition site : Site := {|
  requests_get u := if String.eqb u "https://site.com/happy-hour" then None else Some u;
  html_parse content := Demo.lookup_page content pages;
  urljoin b href :=
    Some (if PyStr.startswith href "/" then "https://site.com" +:+ href else href);
  netloc := Demo.host_of;
  extract_pdf_text := None
|}.

End Patchy.

(** ** Invariants of the crawl loop *)

(** The queue holds no URL twice and none that is in [seen]. *)
Definition queue_ok (seen : gset string) (queue : list string) : Prop :=
  NoDup queue /\ forall u, u ∈ queue -> u ∉ seen.

(** [u] is the entry URL or shares its netloc. *)
Definition same_site (site : Site) (base_url u : string) : Prop :=
  u = base_url \/ netloc site u = netloc site base_url.

(** A list in descending order of [key]. *)
Fixpoint descending (key : string -> Z) (l : list string) : Prop :=
  match l with
  | [] => True
  | x :: l' => (forall y, y ∈ l' -> key y <= key x) /\ descending key l'
  end.

(** ** 4.2 Whitespace clean-up of [extract_text_from_html]

    The three lines that follow [soup.get_text()]: the text is cut into
    lines, every line is stripped and cut at each double space, every piece
    is stripped again, and the pieces that are not empty are joined with
    newlines.  The [text] that [html_parse] returns is [clean_text] of what
    [soup.get_text()] gave. *)

Module PyText.

(** [c.isspace()] below U+0100. *)
Definition isspace (c : ascii) : bool :=
  let n := N_of_ascii c in
  (((9 <=? n) && (n <=? 13)) || ((28 <=? n) && (n <=? 32)) || (n =? 133) || (n =? 160))%N.

(** The line boundaries of [str.splitlines] below U+0100: LF, VT, FF, CR,
    FS, GS, RS and NEL. *)
Definition is_linebreak (c : ascii) : bool :=
  let n := N_of_ascii c in
  (((10 <=? n) && (n <=? 13)) || ((28 <=? n) && (n <=? 30)) || (n =? 133))%N.

Definition is_cr (c : ascii) : bool := (N_of_ascii c =? 13)%N.
Definition is_lf (c : ascii) : bool := (N_of_ascii c =? 10)%N.

(** Every character of [s] satisfies [p]. *)
Fixpoint all_chars (p : ascii -> bool) (s : string) : bool :=
  match s with
  | EmptyString => true
  | String c s' => p c && all_chars p s'
  end.

(** Put [c] in front of the first string of [l]. *)
Definition cons_head (c : ascii) (l : list string) : list string :=
  match l with
  | [] => [String c EmptyString]
  | h :: t => String c h :: t
  end.

(** [s.splitlines()]: a CR LF pair is one boundary, and a boundary at the
    very end opens no further line. *)
Fixpoint splitlines (s : string) : list string :=
  match s with
  | EmptyString => []
  | String c s' =>
      if is_linebreak c then
        match s' with
        | String c' s'' =>
            if is_cr c && is_lf c' then EmptyString :: splitlines s''
            else EmptyString :: splitlines s'
        | EmptyString => [EmptyString]
        end
      else cons_head c (splitlines s')
  end.

(** [s.lstrip()], [s.rstrip()], [s.strip()] *)
Fixpoint lstrip (s : string) : string :=
  match s with
  | EmptyString => EmptyString
  | String c s' => if isspace c then lstrip s' else s
  end.

Fixpoint rstrip (s : string) : string :=
  match s with
  | EmptyString => EmptyString
  | String c s' =>
      match rstrip s' with
      | EmptyString => if isspace c then EmptyString else String c EmptyString
      | String c' r => String c (String c' r)
      end
  end.

Definition strip (s : string) : string := lstrip (rstrip s).

(** [s.split(sep)] for a separator that is not empty: the occurrences of
    [sep] are found left to right and do not overlap.  [skip] counts the
    characters of the occurrence being passed over. *)
Fixpoint split_from (sep : string) (skip : nat) (s : string) : list string :=
  match skip with
  | S skip' =>
      match s with
      | String _ s' => split_from sep skip' s'
      | EmptyString => [EmptyString]
      end
  | O =>
      match s with
      | EmptyString => [EmptyString]
      | String c s' =>
          if PyStr.startswith s sep
          then EmptyString :: split_from sep (Nat.pred (String.length sep)) s'
          else cons_head c (split_from sep O s')
      end
  end.

Definition split (sep s : string) : list string := split_from sep O s.

(** [sep.join(l)] *)
Fixpoint join (sep : string) (l : list string) : string :=
  match l with
  | [] => EmptyString
  | x :: l' =>
      match l' with
      | [] => x
      | _ :: _ => x +:+ sep +:+ join sep l'
      end
  end.

End PyText.

(** [user_payload]: the blocks joined by a blank line. *)
Definition user_payload (snippets : list snippet) : string :=
  PyText.join (newline +:+ newline) (prompt_blocks snippets).

(** The chunks that are joined: [chunk for chunk in chunks if chunk]. *)
Definition clean_chunks (text : string) : list string :=
  let lines := map PyText.strip (PyText.splitlines text) in
  let chunks := flat_map (fun line => map PyText.strip (PyText.split "  " line)) lines in
  filter (fun chunk => PyStr.truthy chunk = true) chunks.

Definition clean_text (text : string) : string :=
  PyText.join newline (clean_chunks text).

(** A chunk in the form the clean-up leaves it in: not empty, no white
    space at either end, no double space, no line boundary. *)
Definition clean_chunk (chunk : string) : Prop :=
  chunk <> EmptyString
  /\ PyText.strip chunk = chunk
  /\ PyStr.contains "  " chunk = false
  /\ PyText.all_chars (fun c => negb (PyText.is_linebreak c)) chunk = true.

(** The snippets collected so far: their URLs are all different, each has
    been marked visited, and there are no more of them than visited URLs. *)
Definition snippets_ok (seen : gset string) (snippets : list snippet) : Prop :=
  NoDup (map fst snippets)
  /\ (forall u, u ∈ map fst snippets -> u ∈ seen)
  /\ (length snippets <= size seen)%nat.

(** Where the text of a snippet comes from: the PDF extraction, which gave
    a text that is not empty, or the parse of the page that was fetched. *)
Definition snippet_source (site : Site) (s : snippet) : Prop :=
  if PyStr.endswith (PyStr.lower (fst s)) ".pdf"
  then snd s = extract_text_from_pdf_url site (fst s) /\ snd s <> EmptyString
  else exists content hrefs,
         requests_get site (fst s) = Some content
         /\ html_parse site content = Some (snd s, hrefs).

(** The head of a piece list is a prefix of the text and every piece occurs
    in it. *)
Definition pieces_of (s : string) (l : list string) : Prop :=
  match l with [] => True | h :: _ => PyStr.Prefix h s end
  /\ Forall (fun piece => PyStr.Substring piece s) l.

(** * Properties *)

(** ** Strings *)

Section StringFacts.

Lemma app_String c s r : String c s +:+ r = String c (s +:+ r).
Proof. reflexivity. Qed.

Lemma app_empty r : EmptyString +:+ r = r.
Proof. reflexivity. Qed.

Lemma startswith_spec s p : PyStr.startswith s p = true <-> PyStr.Prefix p s.
Proof.
  revert s. induction p as [|a p IH]; intros s; simpl.
  - split; [intros _; by exists s | done].
  - destruct s as [|b s].
    + split; [done | intros [r Hr]; discriminate Hr].
    + destruct (Ascii.eqb_spec a b) as [->|Hne].
      * rewrite IH. split; intros [r Hr]; exists r;
          rewrite app_String in *; congruence.
      * split; [done | intros [r Hr]; rewrite app_String in Hr; congruence].
Qed.

Lemma contains_spec k s : PyStr.contains k s = true <-> PyStr.Substring k s.
Proof.
  split.
  - induction s as [|c s IH]; simpl; rewrite orb_true_iff; intros [H|H].
    + apply startswith_spec in H as [r ->]. by exists EmptyString, r.
    + done.
    + apply startswith_spec in H as [r Hr]. exists EmptyString, r. by rewrite app_empty.
    + destruct (IH H) as (p & r & ->). by exists (String c p), r.
  - intros (p & r & ->). induction p as [|c p IH].
    + rewrite app_empty.
      assert (PyStr.startswith (k +:+ r) k = true) as Hs
        by (apply startswith_spec; by exists r).
      destruct (k +:+ r); simpl; by rewrite Hs.
    + rewrite app_String. simpl. rewrite IH. apply orb_true_r.
Qed.

Lemma endswith_unfold s suf :
  PyStr.endswith s suf
  = String.eqb s suf
    || match s with EmptyString => false | String _ s' => PyStr.endswith s' suf end.
Proof. by destruct s. Qed.

Lemma endswith_spec s suf : PyStr.endswith s suf = true <-> PyStr.Suffix suf s.
Proof.
  split.
  - induction s as [|c s IH]; rewrite endswith_unfold, orb_true_iff; intros [H|H].
    + apply String.eqb_eq in H as <-. by exists EmptyString.
    + done.
    + apply String.eqb_eq in H as <-. by exists EmptyString.
    + destruct (IH H) as (p & ->). by exists (String c p).
  - intros (p & ->). induction p as [|c p IH].
    + rewrite app_empty, endswith_unfold, String.eqb_refl. done.
    + rewrite app_String, endswith_unfold, IH. apply orb_true_r.
Qed.

Lemma slice_to_length n s :
  String.length (PyStr.slice_to n s) = Nat.min n (String.length s).
Proof.
  revert s. induction n as [|n IH]; intros [|c s]; simpl; try done.
  by rewrite IH.
Qed.

Lemma slice_to_prefix n s : PyStr.Prefix (PyStr.slice_to n s) s.
Proof.
  revert s. induction n as [|n IH]; intros [|c s]; simpl;
    try (by eexists; rewrite app_empty).
  destruct (IH s) as [r Hr]. exists r. rewrite app_String. by rewrite <- Hr.
Qed.

End StringFacts.

#[global] Instance Substring_dec k s : Decision (PyStr.Substring k s).
Proof.
  destruct (PyStr.contains k s) eqn:H.
  - left. by apply contains_spec.
  - right. intros Hs. apply contains_spec in Hs. congruence.
Defined.

#[global] Instance Suffix_dec suf s : Decision (PyStr.Suffix suf s).
Proof.
  destruct (PyStr.endswith s suf) eqn:H.
  - left. by apply endswith_spec.
  - right. intros Hs. apply endswith_spec in Hs. congruence.
Defined.

(** ** Relevance scorer *)

Lemma if_decide_bool {A} (P : Prop) `{Decision P} (b : bool) (x y : A) :
  (b = true <-> P) -> (if decide P then x else y) = (if b then x else y).
Proof.
  intros Hb. destruct (decide P) as [HP|HP], b; try reflexivity.
  - apply Hb in HP. discriminate HP.
  - destruct HP. by apply Hb.
Qed.

Lemma fold_left_weights (f : string * Z -> bool) (l : list (string * Z)) (a : Z) :
  fold_left (fun score kv => if f kv then score + snd kv else score) l a
  = a + Zsum (map (fun kv => if f kv then snd kv else 0) l).
Proof.
  revert a. induction l as [|kv l IH]; intros a; simpl; [lia|].
  rewrite IH. destruct (f kv); lia.
Qed.

(** C3, as amended: the score is the sum of the weights of the keywords that
    occur in the lower-cased URL, each keyword once, plus 4 exactly when the
    whole lower-cased URL string ends with [.pdf]; the empty URL scores 0. *)
Theorem score_url_spec (url : string) :
  score_url url
  = Zsum (map (fun kv => if decide (PyStr.Substring (fst kv) (PyStr.lower url))
                         then snd kv else 0) keywords)
    + (if decide (PyStr.Suffix ".pdf" (PyStr.lower url)) then 4 else 0)
  /\ score_url EmptyString = 0
  /\ 0 <= score_url url <= 25.
Proof.
  assert (score_url url
    = Zsum (map (fun kv => if decide (PyStr.Substring (fst kv) (PyStr.lower url))
                         then snd kv else 0) keywords)
      + (if decide (PyStr.Suffix ".pdf" (PyStr.lower url)) then 4 else 0)) as Heq.
  { unfold score_url. rewrite fold_left_weights.
    rewrite (if_decide_bool _ (PyStr.endswith (PyStr.lower url) ".pdf"))
      by apply endswith_spec.
    assert (forall l, map (fun kv : string * Z =>
                if PyStr.contains (fst kv) (PyStr.lower url) then snd kv else 0) l
              = map (fun kv => if decide (PyStr.Substring (fst kv) (PyStr.lower url))
                         then snd kv else 0) l) as ->.
    { intros l. apply map_ext. intros kv.
      symmetry. apply if_decide_bool, contains_spec. }
    destruct (PyStr.endswith _ _); lia. }
  split; [exact Heq|]. split; [reflexivity|].
  rewrite Heq. unfold keywords. simpl.
  repeat case_decide; lia.
Qed.

(** C3, as worded: with the bonus tied to the URL's path, a PDF link that
    carries a query string would score 6; [score_url] gives it 2. *)
Lemma score_url_bonus_ignores_path :
  ~ (forall url : string, score_url url = score_as_specified url).
Proof.
  intros H. specialize (H "https://site.com/menu.pdf?v=2").
  vm_compute in H. discriminate H.
Qed.

(** ** Sorting *)

Section Sorting.
Context (key : string -> Z).

Lemma insert_desc_perm x l : insert_desc key x l ≡ₚ x :: l.
Proof.
  induction l as [|y l IH]; simpl; [done|].
  destruct (key x <? key y); [|done].
  rewrite IH. apply Permutation_swap.
Qed.

Lemma sorted_desc_perm l : sorted_desc key l ≡ₚ l.
Proof.
  induction l as [|x l IH]; simpl; [done|].
  by rewrite insert_desc_perm, IH.
Qed.

Lemma elem_of_sorted_desc x l : x ∈ sorted_desc key l <-> x ∈ l.
Proof. by rewrite sorted_desc_perm. Qed.

Lemma insert_desc_descending x l :
  descending key l -> descending key (insert_desc key x l).
Proof.
  induction l as [|y l IH]; simpl.
  - intros _. split; [|done]. intros y Hy. by apply elem_of_nil in Hy.
  - intros [Hy Hl]. destruct (Z.ltb_spec (key x) (key y)) as [Hlt|Hge]; simpl.
    + split; [|by apply IH].
      intros z Hz. rewrite insert_desc_perm in Hz.
      apply elem_of_cons in Hz as [->|Hz]; [lia | by apply Hy].
    + split; [|done].
      intros z Hz. apply elem_of_cons in Hz as [->|Hz]; [lia|].
      specialize (Hy z Hz). lia.
Qed.

Lemma sorted_desc_descending l : descending key (sorted_desc key l).
Proof.
  induction l as [|x l IH]; simpl; [done|]. by apply insert_desc_descending.
Qed.



End Sorting.

(** ** Link discovery *)


Section Links.
Context (site : Site) (order : SetOrder) (base_url : string).

Lemma same_domain_links_elem domain hrefs cands u :
  same_domain_links site base_url domain hrefs = Some cands ->
  u ∈ cands <->
  exists href, href ∈ hrefs /\ urljoin site base_url href = Some u /\ netloc site u = domain.
Proof.
  revert cands. induction hrefs as [|h hrefs IH]; simpl; intros cands Hc.
  - injection Hc as <-. split; [intros H; by apply elem_of_nil in H|].
    intros (h & Hh & _). by apply elem_of_nil in Hh.
  - destruct (urljoin site base_url h) as [a|] eqn:Hj; [|done].
    destruct (same_domain_links site base_url domain hrefs) as [rest|]; [|done].
    specialize (IH rest eq_refl).
    case_decide as Hd; injection Hc as <-.
    + rewrite IH. split; intros (h' & Hh & Hu & Hn).
      * exists h'. rewrite elem_of_cons. auto.
      * apply elem_of_cons in Hh as [->|Hh]; [congruence | eauto].
    + rewrite elem_of_cons, IH. split.
      * intros [->|(h' & Hh & Hu & Hn)].
        -- exists h. rewrite elem_of_cons. split_and!; [auto | done |].
           destruct (decide (netloc site a = domain)); [done | by destruct Hd].
        -- exists h'. rewrite elem_of_cons. auto.
      * intros (h' & Hh & Hu & Hn).
        apply elem_of_cons in Hh as [->|Hh]; [left; congruence | right; eauto].
Qed.

Lemma find_related_pages_elem hrefs related u :
  find_related_pages site order hrefs base_url = Some related ->
  u ∈ related ->
  netloc site u = netloc site base_url /\ 0 < score_url u.
Proof.
  unfold find_related_pages.
  destruct (same_domain_links _ _ _ _) as [cands|] eqn:Hc; [|done].
  intros [= <-] Hu. apply elem_of_take in Hu as (i & Hu & _).
  apply list_elem_of_lookup_2, list_elem_of_filter in Hu as [Hpos Hu].
  split; [|done].
  apply elem_of_sorted_desc, set_iter_elem in Hu.
  by apply (same_domain_links_elem _ _ _ _ Hc) in Hu as (h & _ & _ & Hn).
Qed.

Lemma enqueue_ok seen queue r : queue_ok seen queue -> queue_ok seen (enqueue seen queue r).
Proof.
  intros [Hnd Hdis]. unfold enqueue. case_decide as Hr; [|done].
  destruct Hr as [Hr1 Hr2]. split.
  - apply NoDup_app. split_and!; [done | | apply NoDup_singleton].
    intros x Hx ->%list_elem_of_singleton. done.
  - intros u [Hu| ->%list_elem_of_singleton]%elem_of_app; auto.
Qed.

Lemma enqueue_elem seen queue r u : u ∈ enqueue seen queue r -> u ∈ queue \/ u = r.
Proof.
  unfold enqueue. case_decide; [|auto].
  intros [Hu| ->%list_elem_of_singleton]%elem_of_app; auto.
Qed.

Lemma enqueue_related_ok seen related queue :
  queue_ok seen queue -> queue_ok seen (enqueue_related seen related queue).
Proof.
  unfold enqueue_related. revert queue.
  induction related as [|r related IH]; simpl; intros queue Hq; [done|].
  by apply IH, enqueue_ok.
Qed.

Lemma enqueue_related_elem seen related queue u :
  u ∈ enqueue_related seen related queue -> u ∈ queue \/ u ∈ related.
Proof.
  unfold enqueue_related. revert queue.
  induction related as [|r related IH]; simpl; intros queue Hu; [auto|].
  apply IH in Hu as [Hu|Hu]; [|right; by apply elem_of_cons; right].
  apply enqueue_elem in Hu as [Hu| ->]; [auto | right; apply elem_of_cons; auto].
Qed.

Lemma enqueue_links_ok current_url seen hrefs queue :
  queue_ok seen queue ->
  queue_ok seen (enqueue_links site base_url current_url seen hrefs queue).
Proof.
  revert queue. induction hrefs as [|h hrefs IH]; simpl; intros queue Hq; [done|].
  destruct (urljoin site current_url h) as [a|]; [|done].
  apply IH. repeat case_decide; try done.
  destruct Hq as [Hnd Hdis]. split.
  - apply NoDup_app. split_and!; [done | | apply NoDup_singleton].
    intros x Hx ->%list_elem_of_singleton. tauto.
  - intros u [Hu| ->%list_elem_of_singleton]%elem_of_app; [auto | tauto].
Qed.

Lemma enqueue_links_elem current_url seen hrefs queue u :
  u ∈ enqueue_links site base_url current_url seen hrefs queue ->
  u ∈ queue \/ (netloc site u = netloc site base_url /\ 0 < score_url u).
Proof.
  revert queue. induction hrefs as [|h hrefs IH]; simpl; intros queue Hu; [auto|].
  destruct (urljoin site current_url h) as [a|]; [|auto].
  apply IH in Hu as [Hu|Hu]; [|auto].
  repeat case_decide; auto.
  apply elem_of_app in Hu as [Hu| ->%list_elem_of_singleton]; [auto | right; tauto].
Qed.

Lemma enqueue_related_incl seen related queue u :
  u ∈ queue -> u ∈ enqueue_related seen related queue.
Proof.
  unfold enqueue_related. revert queue.
  induction related as [|r related IH]; simpl; intros queue Hu; [done|].
  apply IH. unfold enqueue. case_decide; [apply elem_of_app; auto | done].
Qed.

Lemma enqueue_links_incl current_url seen hrefs queue u :
  u ∈ queue -> u ∈ enqueue_links site base_url current_url seen hrefs queue.
Proof.
  revert queue. induction hrefs as [|h hrefs IH]; simpl; intros queue Hu; [done|].
  destruct (urljoin site current_url h) as [a|]; [|done].
  apply IH. repeat case_decide; try done. apply elem_of_app; auto.
Qed.


End Links.

(** ** The crawl loop *)

Ltac body_cases :=
  repeat first
    [ case_decide
    | match goal with
      | |- context [PyStr.endswith ?a ?b] => destruct (PyStr.endswith a b) eqn:?
      | |- context [requests_get ?s ?u] => destruct (requests_get s u) as [?|] eqn:?
      | |- context [html_parse ?s ?c] => destruct (html_parse s c) as [[? ?]|] eqn:?
      | |- context [find_related_pages ?s ?o ?h ?b] =>
          destruct (find_related_pages s o h b) as [?|] eqn:?
      | |- context [PyStr.truthy ?t] => destruct (PyStr.truthy t) eqn:?
      end ];
  simpl.

Section Crawl.
Context (site : Site) (order : SetOrder) (base_url : string).

Local Abbreviation body := (loop_body site order base_url).
Local Abbreviation reach := (reachable site order base_url).
Local Abbreviation loop := (crawl_loop site order base_url).

Lemma queue_ok_pop seen u queue :
  queue_ok seen (u :: queue) -> queue_ok (seen ∪ {[ u ]}) queue.
Proof.
  intros [[Hu Hnd]%NoDup_cons Hdis]. split; [done|].
  intros x Hx. rewrite elem_of_union, elem_of_singleton.
  intros [Hs| ->]; [|done].
  apply (Hdis x); [apply elem_of_cons; auto | done].
Qed.

Lemma queue_ok_tail seen u queue : queue_ok seen (u :: queue) -> queue_ok seen queue.
Proof.
  intros [[Hu Hnd]%NoDup_cons Hdis]. split; [done|].
  intros x Hx. apply Hdis, elem_of_cons. auto.
Qed.

Lemma loop_body_queue_ok st :
  queue_ok (visited st) (urls_to_visit st) ->
  queue_ok (visited (body st)) (urls_to_visit (body st)).
Proof.
  unfold loop_body. destruct (urls_to_visit st) as [|u queue] eqn:E; [by rewrite E|].
  intros Hq. pose proof (queue_ok_pop _ _ _ Hq). pose proof (queue_ok_tail _ _ _ Hq).
  body_cases; auto using enqueue_related_ok, enqueue_links_ok.
Qed.

Lemma reachable_queue_ok st : reach st -> queue_ok (visited st) (urls_to_visit st).
Proof.
  induction 1 as [|st _ IH _]; [|by apply loop_body_queue_ok].
  split; [apply NoDup_singleton | set_solver].
Qed.

Lemma loop_body_visited st :
  visited (body st) = visited st \/
  exists u queue, urls_to_visit st = u :: queue /\ (u ∉ visited st) /\
                  visited (body st) = visited st ∪ {[ u ]}.
Proof.
  unfold loop_body. destruct (urls_to_visit st) as [|u queue]; [auto|].
  body_cases; eauto 6.
Qed.

Lemma loop_body_marks st u queue :
  urls_to_visit st = u :: queue -> u ∉ visited st ->
  visited (body st) = visited st ∪ {[ u ]}.
Proof.
  unfold loop_body. intros -> Hu. body_cases; done.
Qed.

Lemma loop_body_visited_mono st : visited st ⊆ visited (body st).
Proof.
  destruct (loop_body_visited st) as [->|(u & q & _ & _ & ->)]; set_solver.
Qed.

Lemma loop_cond_true st :
  loop_cond st = true ->
  (size (visited st) < max_pages)%nat /\ exists u queue, urls_to_visit st = u :: queue.
Proof.
  unfold loop_cond. destruct (urls_to_visit st) as [|u queue]; [done|].
  intros H%bool_decide_eq_true. eauto.
Qed.

Lemma reachable_size st : reach st -> (size (visited st) <= max_pages)%nat.
Proof.
  induction 1 as [|st _ IH Hc].
  { change (visited (init_state base_url)) with (∅ : gset string).
    rewrite size_empty. unfold max_pages. lia. }
  apply loop_cond_true in Hc as [Hlt _].
  destruct (loop_body_visited st) as [->|(u & q & _ & Hu & ->)]; [done|].
  rewrite size_union by set_solver. rewrite size_singleton. lia.
Qed.

Lemma loop_body_same_site st :
  (forall u, u ∈ visited st \/ u ∈ urls_to_visit st -> same_site site base_url u) ->
  forall u, u ∈ visited (body st) \/ u ∈ urls_to_visit (body st) ->
            same_site site base_url u.
Proof.
  unfold loop_body. destruct (urls_to_visit st) as [|c queue] eqn:E; [by rewrite E|].
  intros Hst.
  assert (forall u, u ∈ visited st ∪ {[ c ]} \/ u ∈ queue -> same_site site base_url u) as Hpop.
  { intros u [[Hu| ->%elem_of_singleton]%elem_of_union|Hu]; apply Hst;
      rewrite ?elem_of_cons; auto. }
  body_cases; intros u Hu; try (apply Hpop, Hu);
    try (apply Hst; rewrite elem_of_cons; tauto).
  - destruct Hu as [Hu|Hu]; [by apply Hpop; left|].
    apply enqueue_related_elem in Hu as [Hu|Hu]; [by apply Hpop; right|].
    right. eapply find_related_pages_elem; eauto.
  - destruct Hu as [Hu|Hu]; [by apply Hpop; left|].
    apply enqueue_links_elem in Hu as [Hu|[Hu _]]; [by apply Hpop; right|by right].
Qed.

Lemma reachable_same_site st u :
  reach st -> u ∈ visited st \/ u ∈ urls_to_visit st -> same_site site base_url u.
Proof.
  intros Hr. revert u. induction Hr as [|st _ IH _]; [|by apply loop_body_same_site].
  simpl. intros u [Hu|Hu%list_elem_of_singleton]; [set_solver | by left].
Qed.

(** The loop stops: from a reachable state every iteration marks a new URL,
    so [max_pages] iterations are the most it can make. *)
Lemma crawl_loop_terminates fuel st :
  queue_ok (visited st) (urls_to_visit st) ->
  (max_pages <= fuel + size (visited st))%nat ->
  exists st', loop fuel st = Some st'.
Proof.
  revert st. induction fuel as [|fuel IH]; intros st Hq Hfuel; simpl.
  - destruct (loop_cond st) eqn:Hc; [|eauto].
    apply loop_cond_true in Hc as [Hlt _]. lia.
  - destruct (loop_cond st) eqn:Hc; [|eauto].
    apply loop_cond_true in Hc as [Hlt (u & queue & Hu)].
    apply IH; [by apply loop_body_queue_ok|].
    assert (u ∉ visited st) as Hnew by (apply Hq; rewrite Hu; apply elem_of_cons; auto).
    rewrite (loop_body_marks st u queue Hu Hnew).
    rewrite size_union by set_solver. rewrite size_singleton. lia.
Qed.

Lemma crawl_loop_reachable fuel st st' :
  reach st -> loop fuel st = Some st' -> reach st' /\ loop_cond st' = false.
Proof.
  revert st. induction fuel as [|fuel IH]; intros st Hr; simpl;
    destruct (loop_cond st) eqn:Hc; try done.
  - intros [= <-]. done.
  - intros Hl. apply (IH _ (reach_step _ _ _ _ Hr Hc) Hl).
  - intros [= <-]. done.
Qed.

Lemma crawl_loop_more_fuel fuel fuel' st st' :
  loop fuel st = Some st' -> (fuel <= fuel')%nat -> loop fuel' st = Some st'.
Proof.
  revert fuel' st. induction fuel as [|fuel IH]; intros fuel' st; simpl;
    destruct (loop_cond st) eqn:Hc; try done.
  - intros [= <-] _. destruct fuel'; simpl; by rewrite Hc.
  - intros Hl Hle. destruct fuel' as [|fuel']; [lia|]. simpl. rewrite Hc.
    apply IH; [done | lia].
  - intros [= <-] _. destruct fuel'; simpl; by rewrite Hc.
Qed.

Lemma scrape_with_crawl_total fuel :
  (max_pages <= fuel)%nat ->
  exists snippets, scrape_with_crawl site order fuel base_url = Some snippets.
Proof.
  intros Hfuel. unfold scrape_with_crawl.
  destruct (crawl_loop_terminates fuel (init_state base_url)) as [st' ->].
  - apply reachable_queue_ok, reach_init.
  - lia.
  - by eexists.
Qed.

(** A URL that is queued or visited stays queued or visited. *)
Lemma loop_body_known st u :
  u ∈ visited st \/ u ∈ urls_to_visit st ->
  u ∈ visited (body st) \/ u ∈ urls_to_visit (body st).
Proof.
  unfold loop_body. destruct (urls_to_visit st) as [|c queue] eqn:E; [by rewrite E|].
  intros Hu.
  assert (u ∈ visited st \/ u = c \/ u ∈ queue) as Hu'
    by (rewrite elem_of_cons in Hu; tauto).
  clear Hu.
  body_cases; rewrite ?elem_of_union, ?elem_of_singleton;
    destruct Hu' as [?|[->|?]];
    auto using enqueue_related_incl, enqueue_links_incl.
Qed.

Lemma loop_body_snippets_prefix st : all_snippets st `prefix_of` all_snippets (body st).
Proof.
  unfold loop_body. destruct (urls_to_visit st) as [|u queue]; [done|].
  body_cases; try done; by apply prefix_app_r.
Qed.

End Crawl.

(** ** Frontier and visited set *)

(** C1: whenever the loop condition is tested, at most [max_pages] = 6 URLs
    are marked visited; the visited set only grows, so a URL enters it at
    most once; and no visited URL is in the queue, now or after the next
    iteration, however many links the pages carry. *)
Theorem visited_bounded_never_requeued site order base_url st :
  reachable site order base_url st ->
  (size (visited st) <= 6)%nat
  /\ visited st ⊆ visited (loop_body site order base_url st)
  /\ (forall u, u ∈ visited st ->
        (u ∉ urls_to_visit st) /\ (u ∉ urls_to_visit (loop_body site order base_url st))).
Proof.
  intros Hr. split; [by apply (reachable_size site order base_url)|].
  split; [apply loop_body_visited_mono|].
  intros u Hu. split.
  - intros Hq. by apply (reachable_queue_ok _ _ _ _ Hr) in Hq.
  - intros Hq.
    apply (loop_body_queue_ok site order base_url st) in Hq;
      [|exact (reachable_queue_ok _ _ _ _ Hr)].
    by apply Hq, loop_body_visited_mono.
Qed.

Lemma visited_bounded_never_requeued_witness :
  let st := loop_body Demo.site Demo.discovery_order Demo.home (init_state Demo.home) in
  (size (visited st) <= 6)%nat
  /\ visited st ⊆ visited (loop_body Demo.site Demo.discovery_order Demo.home st)
  /\ (forall u, u ∈ visited st ->
        (u ∉ urls_to_visit st)
        /\ (u ∉ urls_to_visit (loop_body Demo.site Demo.discovery_order Demo.home st))).
Proof.
  apply (visited_bounded_never_requeued Demo.site Demo.discovery_order Demo.home).
  apply reach_step; [apply reach_init | reflexivity].
Defined.

(** C10: whenever the loop condition is tested, the queue holds no URL
    twice and no visited URL, and a URL that is queued or visited stays so
    after the iteration (so it is never appended a second time); the URL
    that [pop(0)] returns is therefore never in [visited], and the iteration
    marks it. *)
Theorem frontier_distinct_and_unvisited site order base_url st :
  reachable site order base_url st ->
  NoDup (urls_to_visit st)
  /\ (forall u, u ∈ urls_to_visit st -> u ∉ visited st)
  /\ (forall u, u ∈ visited st \/ u ∈ urls_to_visit st ->
        u ∈ visited (loop_body site order base_url st)
        \/ u ∈ urls_to_visit (loop_body site order base_url st))
  /\ (forall u queue, urls_to_visit st = u :: queue ->
        (u ∉ visited st)
        /\ visited (loop_body site order base_url st) = visited st ∪ {[ u ]}).
Proof.
  intros Hr. destruct (reachable_queue_ok _ _ _ _ Hr) as [Hnd Hdis].
  split; [done|]. split; [done|]. split; [apply loop_body_known|].
  intros u queue Hq.
  assert (u ∉ visited st) as Hu by (apply Hdis; rewrite Hq; apply elem_of_cons; auto).
  split; [done|]. by apply (loop_body_marks _ _ _ _ _ queue).
Qed.

Lemma frontier_distinct_and_unvisited_witness :
  let st := loop_body Demo.site Demo.reverse_order Demo.home (init_state Demo.home) in
  NoDup (urls_to_visit st)
  /\ (forall u, u ∈ urls_to_visit st -> u ∉ visited st)
  /\ (forall u, u ∈ visited st \/ u ∈ urls_to_visit st ->
        u ∈ visited (loop_body Demo.site Demo.reverse_order Demo.home st)
        \/ u ∈ urls_to_visit (loop_body Demo.site Demo.reverse_order Demo.home st))
  /\ (forall u queue, urls_to_visit st = u :: queue ->
        (u ∉ visited st)
        /\ visited (loop_body Demo.site Demo.reverse_order Demo.home st)
           = visited st ∪ {[ u ]}).
Proof.
  apply (frontier_distinct_and_unvisited Demo.site Demo.reverse_order Demo.home).
  apply reach_step; [apply reach_init | reflexivity].
Defined.

(** C8: every URL in the visited set or in the queue is the entry URL or has
    the entry URL's netloc. *)
Theorem crawl_stays_on_site site order base_url st u :
  reachable site order base_url st ->
  u ∈ visited st \/ u ∈ urls_to_visit st ->
  u = base_url \/ netloc site u = netloc site base_url.
Proof. apply reachable_same_site. Qed.

Lemma crawl_stays_on_site_witness :
  "https://site.com/menu-a" = Demo.home
  \/ netloc Demo.site "https://site.com/menu-a" = netloc Demo.site Demo.home.
Proof.
  apply (crawl_stays_on_site Demo.site Demo.discovery_order Demo.home
           (loop_body Demo.site Demo.discovery_order Demo.home (init_state Demo.home))).
  - apply reach_step; [apply reach_init | reflexivity].
  - right. vm_compute. apply list_elem_of_here.
Defined.

(** ** Failure isolation *)

(** C6, as amended: when the whole lower-cased URL string ends with [.pdf],
    the iteration appends the snippet [(url, pdf_text)] exactly when the
    extracted text is not empty, and leaves the queue as the pop left it; a
    failed download, a missing pdfminer and a failed extraction all give the
    empty text, hence no snippet. *)
Theorem pdf_page_is_leaf site order base_url st u queue :
  urls_to_visit st = u :: queue ->
  u ∉ visited st ->
  PyStr.Suffix ".pdf" (PyStr.lower u) ->
  let pdf_text := extract_text_from_pdf_url site u in
  let st' := loop_body site order base_url st in
  visited st' = visited st ∪ {[ u ]}
  /\ urls_to_visit st' = queue
  /\ (pdf_text <> EmptyString -> all_snippets st' = all_snippets st ++ [(u, pdf_text)])
  /\ (pdf_text = EmptyString -> all_snippets st' = all_snippets st)
  /\ (requests_get site u = None
      \/ extract_pdf_text site = None
      \/ (exists content extract,
            requests_get site u = Some content /\ extract_pdf_text site = Some extract
            /\ extract content = None) ->
      pdf_text = EmptyString).
Proof.
  intros Hq Hu Hpdf%endswith_spec pdf_text st'.
  assert (st' = {| visited := visited st ∪ {[ u ]}; urls_to_visit := queue;
                   all_snippets := if PyStr.truthy pdf_text
                                   then all_snippets st ++ [(u, pdf_text)]
                                   else all_snippets st |}) as ->.
  { unfold st', loop_body. rewrite Hq. rewrite decide_False by done. by rewrite Hpdf. }
  simpl. split_and!; try done.
  - by destruct pdf_text.
  - by intros ->.
  - unfold pdf_text, extract_text_from_pdf_url.
    intros [-> | [Hx | (content & extract & -> & -> & ->)]]; try done.
    rewrite Hx. by destruct (requests_get site u).
Qed.

Lemma pdf_page_is_leaf_witness :
  let u := "https://site.com/specials.pdf" in
  urls_to_visit (loop_body Demo.site Demo.discovery_order u (init_state u)) = [].
Proof.
  intros u.
  apply (pdf_page_is_leaf Demo.site Demo.discovery_order u (init_state u) u []).
  - reflexivity.
  - apply not_elem_of_empty.
  - exists "https://site.com/specials". reflexivity.
Defined.

(** C6, as worded: a URL whose path ends in [.pdf] but which goes on with a
    query string is fetched as HTML, and the links of the page are
    enqueued. *)
Lemma pdf_test_ignores_path :
  ~ (forall site order base_url st u queue,
       urls_to_visit st = u :: queue ->
       u ∉ visited st ->
       PyStr.endswith (PyStr.lower (Url.path u)) ".pdf" = true ->
       urls_to_visit (loop_body site order base_url st) = queue).
Proof.
  intros H.
  specialize (H Demo.site Demo.discovery_order "https://site.com/menu.pdf?v=2"
                (init_state "https://site.com/menu.pdf?v=2")
                "https://site.com/menu.pdf?v=2" [] eq_refl (not_elem_of_empty _) eq_refl).
  vm_compute in H. discriminate H.
Qed.

(** ** Entry-page expansion *)

Lemma find_related_pages_NoDup site (order : SetOrder) hrefs base_url related :
  find_related_pages site order hrefs base_url = Some related -> NoDup related.
Proof.
  unfold find_related_pages.
  destruct (same_domain_links _ _ _ _) as [cands|]; [|done].
  intros [= <-]. eapply sublist_NoDup; [|apply sublist_take].
  apply NoDup_filter. rewrite sorted_desc_perm. apply set_iter_NoDup.
Qed.


(** ** Repeated crawls *)


(** ** Candidate selection *)

Lemma fallback_candidates_Forall2 (snippets : list snippet) :
  Forall2 (fun s c => url c = fst s /\ PyStr.Prefix (text c) (snd s)
                      /\ String.length (text c) = Nat.min 2000 (String.length (snd s)))
          snippets
          (map (fun s => {| url := fst s; text := PyStr.slice_to 2000 (snd s) |}) snippets).
Proof.
  induction snippets as [|s snippets IH]; cbn [map]; constructor; [|done].
  cbn [url text]. split_and!; [done | apply slice_to_prefix | apply slice_to_length].
Qed.

(** C9: when the pattern finds nothing in any snippet, [candidates] has one
    entry per snippet, in order, with the snippet's URL and the first 2000
    characters of its text; otherwise it is the list of matches; and in both
    cases [prompt_blocks] is built from the first 8 candidates only. *)
Theorem fallback_and_cap (snippets : list snippet) :
  (regex_candidates snippets = [] ->
     Forall2 (fun s c => url c = fst s /\ PyStr.Prefix (text c) (snd s)
                         /\ String.length (text c) = Nat.min 2000 (String.length (snd s)))
             snippets (candidates snippets)
     /\ Forall (fun c => (String.length (text c) <= 2000)%nat) (candidates snippets))
  /\ (regex_candidates snippets <> [] -> candidates snippets = regex_candidates snippets)
  /\ (exists retained,
        retained = take 8 (candidates snippets)
        /\ (length retained <= 8)%nat
        /\ retained `prefix_of` candidates snippets
        /\ prompt_blocks snippets
           = map (fun c => "URL: " +:+ url c +:+ newline +:+ "---" +:+ newline +:+ text c)
                 retained).
Proof.
  split_and!.
  - intros Hnone. unfold candidates. rewrite Hnone.
    pose proof (fallback_candidates_Forall2 snippets) as HF. split; [done|].
    apply Forall_forall. intros c Hc.
    apply list_elem_of_lookup in Hc as [i Hc].
    destruct (Forall2_lookup_r _ _ _ _ _ HF Hc) as (s & _ & _ & _ & Hlen). lia.
  - intros Hsome. unfold candidates. by destruct (regex_candidates snippets).
  - exists (take 8 (candidates snippets)). split_and!; [done | | | done].
    + rewrite length_take. lia.
    + apply prefix_take.
Qed.

Lemma fallback_and_cap_witness :
  Forall (fun c => (String.length (text c) <= 2000)%nat)
         (candidates [("https://site.com/", "Welcome"); ("https://site.com/menu-c", "Dinner")]).
Proof.
  apply (proj1 (fallback_and_cap
                  [("https://site.com/", "Welcome"); ("https://site.com/menu-c", "Dinner")])).
  reflexivity.
Defined.

(** C4: what the pattern does with the class [[-–to]+] between the two
    times.  A lone [o] or [t] is taken for a separator, so these two texts
    give a candidate although they hold no hyphen, no en dash and no word
    [to]; the text of the design document's example gives the candidate
    that runs from the indicator through [6pm]. *)
Theorem separator_class_accepts_letters :
  Re.finditer HAPPY_HOUR_REGEX "hh 3 o 4" = ["hh 3 o 4"]
  /\ Re.finditer HAPPY_HOUR_REGEX "Happy hour menu: 2 tacos, 10 ot 12 wings" 
     = ["Happy hour menu: 2 tacos, 10 ot 12 "]
  /\ regex_candidates [("https://site.com/menu-a", "Happy Hour runs 3pm-6pm daily")]
     = [{| url := "https://site.com/menu-a"; text := "Happy Hour runs 3pm-6pm" |}].
Proof. split_and!; vm_compute; reflexivity. Qed.

(** ** The matcher *)

Section Matcher.

Lemma Suffix_refl s : PyStr.Suffix s s.
Proof. by exists EmptyString. Qed.

Lemma Suffix_String c mid s : PyStr.Suffix mid s -> PyStr.Suffix mid (String c s).
Proof. intros [p ->]. by exists (String c p). Qed.

Lemma Suffix_trans a b c : PyStr.Suffix a b -> PyStr.Suffix b c -> PyStr.Suffix a c.
Proof.
  intros [p ->] [q ->]. exists (q +:+ p).
  induction q as [|x q IH]; [done|]. rewrite !app_String. by rewrite IH.
Qed.

Lemma Suffix_length mid s : PyStr.Suffix mid s -> (String.length mid <= String.length s)%nat.
Proof.
  intros [p ->]. induction p as [|x p IH]; [done|].
  rewrite app_String. simpl. lia.
Qed.

(** What a repetition hands to its continuation is a tail of its input. *)
Lemma rep_greedy_suffix p k lo hi s rest :
  Re.rep_greedy p k lo hi s = Some rest ->
  exists mid, PyStr.Suffix mid s /\ k mid = Some rest.
Proof.
  revert lo hi. induction s as [|c s IH]; intros lo hi; simpl.
  - destruct lo; [|done]. intros Hk. exists EmptyString. split; [apply Suffix_refl | done].
  - assert (match lo with O => k (String c s) | S _ => None end = Some rest ->
            exists mid, PyStr.Suffix mid (String c s) /\ k mid = Some rest) as Hstop.
    { destruct lo; [|done]. intros Hk. exists (String c s). split; [apply Suffix_refl | done]. }
    destruct (p c && Re.can_more hi); [|done].
    destruct (Re.rep_greedy p k (Nat.pred lo) (Re.one_less hi) s) as [r|] eqn:Hr; [|done].
    intros [= <-]. destruct (IH _ _ Hr) as (mid & Hm & Hk).
    exists mid. split; [by apply Suffix_String | done].
Qed.

Lemma rep_lazy_suffix p k lo hi s rest :
  Re.rep_lazy p k lo hi s = Some rest ->
  exists mid, PyStr.Suffix mid s /\ k mid = Some rest.
Proof.
  revert lo hi. induction s as [|c s IH]; intros lo hi; simpl.
  - destruct lo; [|done]. destruct (k EmptyString) eqn:Hk; [|done].
    intros [= <-]. exists EmptyString. split; [apply Suffix_refl | done].
  - assert ((if p c && Re.can_more hi
             then Re.rep_lazy p k (Nat.pred lo) (Re.one_less hi) s else None) = Some rest ->
            exists mid, PyStr.Suffix mid (String c s) /\ k mid = Some rest) as Hmore.
    { destruct (p c && Re.can_more hi); [|done]. intros Hr.
      destruct (IH _ _ Hr) as (mid & Hm & Hk).
      exists mid. split; [by apply Suffix_String | done]. }
    destruct lo; [|done].
    destruct (k (String c s)) eqn:Hk; [|done].
    intros [= <-]. exists (String c s). split; [apply Suffix_refl | done].
Qed.

Lemma exec_suffix r k s rest :
  Re.exec r k s = Some rest ->
  exists mid, PyStr.Suffix mid s /\ k mid = Some rest.
Proof.
  revert k s. induction r as [|p|a IHa b IHb|a IHa b IHb|a IHa|greedy lo hi p];
    intros k s; simpl.
  - intros Hk. exists s. split; [apply Suffix_refl | done].
  - destruct s as [|c s]; [done|]. destruct (p c); [|done].
    intros Hk. exists s. split; [apply Suffix_String, Suffix_refl | done].
  - intros (mid1 & Hm1 & (mid & Hm & Hk)%IHb)%IHa.
    exists mid. split; [by eapply Suffix_trans | done].
  - destruct (Re.exec a k s) as [r|] eqn:Ha.
    + intros [= <-]. by apply IHa.
    + apply IHb.
  - destruct (Re.exec a k s) as [r|] eqn:Ha.
    + intros [= <-]. by apply IHa.
    + intros Hk. exists s. split; [apply Suffix_refl | done].
  - destruct greedy; [apply rep_greedy_suffix | apply rep_lazy_suffix].
Qed.

Lemma rep_greedy_progress p k lo hi s rest :
  Re.rep_greedy p k (S lo) hi s = Some rest ->
  exists mid, PyStr.Suffix mid s /\ (String.length mid < String.length s)%nat
              /\ k mid = Some rest.
Proof.
  destruct s as [|c s]; simpl; [done|].
  destruct (p c && Re.can_more hi); [|done].
  destruct (Re.rep_greedy p k lo (Re.one_less hi) s) as [r|] eqn:Hr; [|done].
  intros [= <-]. apply rep_greedy_suffix in Hr as (mid & Hm & Hk).
  pose proof (Suffix_length _ _ Hm).
  exists mid. split_and!; [by apply Suffix_String | simpl; lia | done].
Qed.

Lemma rep_lazy_progress p k lo hi s rest :
  Re.rep_lazy p k (S lo) hi s = Some rest ->
  exists mid, PyStr.Suffix mid s /\ (String.length mid < String.length s)%nat
              /\ k mid = Some rest.
Proof.
  destruct s as [|c s]; simpl; [done|].
  destruct (p c && Re.can_more hi); [|done].
  intros (mid & Hm & Hk)%rep_lazy_suffix.
  pose proof (Suffix_length _ _ Hm).
  exists mid. split_and!; [by apply Suffix_String | simpl; lia | done].
Qed.

Lemma exec_progress r k s rest :
  Re.nonempty r = true ->
  Re.exec r k s = Some rest ->
  exists mid, PyStr.Suffix mid s /\ (String.length mid < String.length s)%nat
              /\ k mid = Some rest.
Proof.
  revert k s. induction r as [|p|a IHa b IHb|a IHa b IHb|a IHa|greedy lo hi p];
    intros k s; simpl; try done.
  - intros _. destruct s as [|c s]; [done|]. destruct (p c); [|done].
    intros Hk. exists s. split_and!; [apply Suffix_String, Suffix_refl | simpl; lia | done].
  - intros [Ha|Hb]%orb_true_iff Hx.
    + apply (IHa _ _ Ha) in Hx as (mid1 & Hm1 & Hlt & (mid & Hm & Hk)%exec_suffix).
      pose proof (Suffix_length _ _ Hm).
      exists mid. split_and!; [by eapply Suffix_trans | lia | done].
    + apply exec_suffix in Hx as (mid1 & Hm1 & Hx).
      apply (IHb _ _ Hb) in Hx as (mid & Hm & Hlt & Hk).
      pose proof (Suffix_length _ _ Hm1).
      exists mid. split_and!; [by eapply Suffix_trans | lia | done].
  - intros [Ha Hb]%andb_true_iff.
    destruct (Re.exec a k s) as [r|] eqn:Hx.
    + intros [= <-]. by apply IHa.
    + by apply IHb.
  - destruct lo as [|lo]; [done|]. intros _.
    destruct greedy; [apply rep_greedy_progress | apply rep_lazy_progress].
Qed.

(** A match of [HAPPY_HOUR_REGEX] is never empty, and what is left after it
    is a tail of the text. *)
Lemma match_prefix_shorter s rest :
  Re.match_prefix HAPPY_HOUR_REGEX s = Some rest ->
  PyStr.Suffix rest s /\ (String.length rest < String.length s)%nat.
Proof.
  unfold Re.match_prefix.
  intros (mid & Hm & Hlt & [= ->])%exec_progress; done.
Qed.

(** Every excerpt that [finditer] returns occurs in the text. *)
Lemma finditer_from_substring r skip s m :
  m ∈ Re.finditer_from r skip s -> PyStr.Substring m s.
Proof.
  revert skip. induction s as [|c s IH]; intros skip.
  - destruct skip; simpl; [|by intros ?%elem_of_nil].
    destruct (Re.match_prefix r EmptyString); simpl.
    + intros [->|?%elem_of_nil]%elem_of_cons; [|done]. by exists EmptyString, EmptyString.
    + by intros ?%elem_of_nil.
  - assert (forall k, m ∈ Re.finditer_from r k s -> PyStr.Substring m (String c s)) as Hs.
    { intros k (p & q & ->)%IH. by exists (String c p), q. }
    destruct skip as [|skip]; cbn [Re.finditer_from]; [|apply Hs].
    destruct (Re.match_prefix r (String c s)) as [rest|]; [|apply Hs].
    intros [->|Hm]%elem_of_cons; [|by eapply Hs].
    destruct (slice_to_prefix (String.length (String c s) - String.length rest) (String c s))
      as [q Hq].
    exists EmptyString, q. by rewrite app_empty.
Qed.

Lemma regex_candidates_from_snippets snippets c :
  c ∈ regex_candidates snippets ->
  exists s, s ∈ snippets /\ url c = fst s /\ PyStr.Substring (text c) (snd s).
Proof.
  unfold regex_candidates. rewrite list_elem_of_In, in_flat_map.
  intros (s & Hs%list_elem_of_In & Hc%list_elem_of_In).
  apply list_elem_of_fmap in Hc as (m & -> & Hm).
  exists s. split_and!; [done | done |]. by eapply finditer_from_substring.
Qed.

End Matcher.

(** ** Fuel *)

(** Once the fuel covers [max_pages] iterations the result does not depend
    on it. *)
Lemma scrape_with_crawl_fuel_irrelevant site order base_url fuel fuel' :
  (6 <= fuel)%nat -> (6 <= fuel')%nat ->
  scrape_with_crawl site order fuel base_url = scrape_with_crawl site order fuel' base_url.
Proof.
  intros Hf Hf'. unfold scrape_with_crawl.
  destruct (crawl_loop_terminates site order base_url 6 (init_state base_url)) as [st Hst].
  - apply (reachable_queue_ok site order base_url), reach_init.
  - unfold max_pages. lia.
  - by rewrite (crawl_loop_more_fuel _ _ _ _ _ _ _ Hst Hf),
               (crawl_loop_more_fuel _ _ _ _ _ _ _ Hst Hf').
Qed.

(** The list a crawl returns is the snippet list of a reachable state in
    which the loop condition is false. *)
Lemma scrape_with_crawl_reachable site order base_url fuel snippets :
  scrape_with_crawl site order fuel base_url = Some snippets ->
  exists st, reachable site order base_url st /\ loop_cond st = false
             /\ all_snippets st = snippets.
Proof.
  unfold scrape_with_crawl.
  destruct (crawl_loop _ _ _ _ _) as [st|] eqn:Hst; [|done].
  intros [= <-]. exists st.
  destruct (crawl_loop_reachable _ _ _ _ _ _ (reach_init _ _ _) Hst). done.
Qed.

(** ** Examples *)

Example score_url_examples :
  score_url "https://site.com/happy-hour-menu.pdf" = 16
  /\ score_url "https://site.com/about" = 0
  /\ score_url "https://SITE.com/Menu/MENU.PDF" = 6
  /\ score_url "https://site.com/specials.pdf" = 7.
Proof. split_and!; reflexivity. Qed.

Example url_path_examples :
  Url.path "https://site.com/menu.pdf?v=2" = "/menu.pdf"
  /\ Url.path "HTTP://site.com:80/a/b.PDF#frag" = "/a/b.PDF"
  /\ Url.path "/a/b?x" = "/a/b".
Proof. split_and!; reflexivity. Qed.

Example finditer_examples :
  Re.finditer HAPPY_HOUR_REGEX "hh 1-2hh 3-4" = ["hh 1-2"; "hh 3-4"]
  /\ Re.finditer HAPPY_HOUR_REGEX "Happy hour 3 to 6 and HH 10:30am - 12:00 pm daily, hh 5"
     = ["Happy hour 3 to 6 "; "HH 10:30am - 12:00 pm"]
  /\ Re.finditer HAPPY_HOUR_REGEX "happy hour 123-4567" = ["happy hour 123-45"]
  /\ Re.finditer HAPPY_HOUR_REGEX "hh 7 p m - 8" = [].
Proof. split_and!; vm_compute; reflexivity. Qed.

Example crawl_example :
  scrape_with_crawl Demo.site Demo.discovery_order 6 Demo.home
  = Some [ ("https://site.com/", "Welcome");
           ("https://site.com/menu-a", "Happy Hour runs 3pm-6pm daily");
           ("https://site.com/menu-b", "Lunch from 11");
           ("https://site.com/menu-c", "Dinner");
           ("https://site.com/specials.pdf", "Happy Hour 4-7pm Mon-Fri $5 beers") ]
  /\ prompt_blocks [ ("https://site.com/specials.pdf", "Happy Hour 4-7pm Mon-Fri $5 beers") ]
     = [ "URL: https://site.com/specials.pdf" +:+ newline +:+ "---" +:+ newline
         +:+ "Happy Hour 4-7pm" ].
Proof. split; vm_compute; reflexivity. Qed.

(** * Further properties of the code *)

(** ** Relevance scorer *)

Section ScorerFacts.

Lemma lower_char_idem c : PyStr.lower_char (PyStr.lower_char c) = PyStr.lower_char c.
Proof. destruct c as [[] [] [] [] [] [] [] []]; reflexivity. Qed.

Lemma lower_idem s : PyStr.lower (PyStr.lower s) = PyStr.lower s.
Proof. induction s as [|c s IH]; simpl; [done|]. by rewrite lower_char_idem, IH. Qed.

Lemma lower_app p s : PyStr.lower (p +:+ s) = PyStr.lower p +:+ PyStr.lower s.
Proof.
  induction p as [|c p IH]; [done|]. rewrite app_String. simpl.
  by rewrite IH, app_String.
Qed.

Lemma str_app_assoc a b c : (a +:+ b) +:+ c = a +:+ (b +:+ c).
Proof. induction a as [|x a IH]; [done|]. by rewrite !app_String, IH. Qed.

Lemma Substring_app_l k p s : PyStr.Substring k s -> PyStr.Substring k (p +:+ s).
Proof. intros (a & b & ->). exists (p +:+ a), b. by rewrite str_app_assoc. Qed.

Lemma Suffix_app_l suf p s : PyStr.Suffix suf s -> PyStr.Suffix suf (p +:+ s).
Proof. intros (a & ->). exists (p +:+ a). by rewrite str_app_assoc. Qed.

Lemma Zsum_nonneg (f : string * Z -> bool) (l : list (string * Z)) :
  Forall (fun kv => 0 < snd kv) l ->
  0 <= Zsum (map (fun kv => if f kv then snd kv else 0) l).
Proof.
  induction 1 as [|kv l Hkv _ IH]; simpl; [done|]. destruct (f kv); lia.
Qed.

Lemma Zsum_positive_iff (f : string * Z -> bool) (l : list (string * Z)) :
  Forall (fun kv => 0 < snd kv) l ->
  0 < Zsum (map (fun kv => if f kv then snd kv else 0) l)
  <-> exists kv, kv ∈ l /\ f kv = true.
Proof.
  induction 1 as [|kv l Hkv Hl IH]; simpl.
  - split; [lia | intros (kv & Hin & _); by apply elem_of_nil in Hin].
  - pose proof (Zsum_nonneg f l Hl). split.
    + destruct (f kv) eqn:Hf.
      * intros _. exists kv. split; [apply list_elem_of_here | done].
      * intros Hpos.
        assert (0 < Zsum (map (fun kv => if f kv then snd kv else 0) l)) as Hp by lia.
        apply IH in Hp as (kv' & Hin & Hf').
        exists kv'. split; [by apply list_elem_of_further | done].
    + intros (kv' & [->|Hin]%elem_of_cons & Hf').
      * rewrite Hf'. lia.
      * assert (0 < Zsum (map (fun kv => if f kv then snd kv else 0) l))
          by (apply IH; eauto).
        destruct (f kv); lia.
Qed.

Lemma Zsum_mono (f g : string * Z -> bool) (l : list (string * Z)) :
  Forall (fun kv => 0 < snd kv) l ->
  (forall kv, f kv = true -> g kv = true) ->
  Zsum (map (fun kv => if f kv then snd kv else 0) l)
  <= Zsum (map (fun kv => if g kv then snd kv else 0) l).
Proof.
  intros Hl Hfg. induction Hl as [|kv l Hkv _ IH]; simpl; [done|].
  destruct (f kv) eqn:Hf; [rewrite (Hfg _ Hf); lia|]. destruct (g kv); lia.
Qed.

Lemma keywords_positive : Forall (fun kv : string * Z => 0 < snd kv) keywords.
Proof. unfold keywords. repeat constructor. Qed.

End ScorerFacts.

(** X1: a URL has a positive score exactly when its lower-cased form holds
    one of the keywords or ends with [.pdf]. *)
Theorem score_url_positive_iff (url : string) :
  0 < score_url url
  <-> (exists kv, kv ∈ keywords /\ PyStr.Substring (fst kv) (PyStr.lower url))
      \/ PyStr.Suffix ".pdf" (PyStr.lower url).
Proof.
  unfold score_url. rewrite fold_left_weights, Z.add_0_l.
  pose proof (Zsum_nonneg (fun kv => PyStr.contains (fst kv) (PyStr.lower url))
                keywords keywords_positive) as Hnn.
  pose proof (Zsum_positive_iff (fun kv => PyStr.contains (fst kv) (PyStr.lower url))
                keywords keywords_positive) as Hpos.
  cbv beta in Hnn, Hpos. rewrite <- endswith_spec.
  destruct (PyStr.endswith (PyStr.lower url) ".pdf").
  - split; [auto | lia].
  - rewrite Hpos. split.
    + intros (kv & Hin & Hc%contains_spec). eauto.
    + intros [(kv & Hin & Hc%contains_spec)|?]; [eauto | done].
Qed.

(** X2: text put in front of a URL never lowers its score: the keywords and
    the [.pdf] ending that the URL has are still there. *)
Theorem score_url_prefix_mono (p url : string) :
  score_url url <= score_url (p +:+ url).
Proof.
  unfold score_url. rewrite !fold_left_weights, !Z.add_0_l, lower_app.
  pose proof (Zsum_mono
    (fun kv => PyStr.contains (fst kv) (PyStr.lower url))
    (fun kv => PyStr.contains (fst kv) (PyStr.lower p +:+ PyStr.lower url))
    keywords keywords_positive) as Hmono.
  assert (forall kv : string * Z,
             PyStr.contains (fst kv) (PyStr.lower url) = true ->
             PyStr.contains (fst kv) (PyStr.lower p +:+ PyStr.lower url) = true) as Hc.
  { intros kv Hk%contains_spec. by apply contains_spec, Substring_app_l. }
  specialize (Hmono Hc). cbv beta in Hmono.
  destruct (PyStr.endswith (PyStr.lower url) ".pdf") eqn:He.
  - apply endswith_spec in He.
    apply (Suffix_app_l _ (PyStr.lower p)), endswith_spec in He. rewrite He. lia.
  - destruct (PyStr.endswith (PyStr.lower p +:+ PyStr.lower url) ".pdf"); lia.
Qed.

(** X3: the score does not depend on the case of the URL: lower-casing the
    argument first changes nothing. *)
Theorem score_url_case_insensitive (url : string) :
  score_url (PyStr.lower url) = score_url url.
Proof. unfold score_url. by rewrite lower_idem. Qed.

(** ** Ranking of the entry page's links *)

Section RankingFacts.
Context (key : string -> Z).

Lemma descending_filter (P : string -> Prop) `{!forall x, Decision (P x)} l :
  descending key l -> descending key (filter P l).
Proof.
  induction l as [|x l IH]; [done|]. intros [Hx Hl]. rewrite filter_cons.
  destruct (decide (P x)); [|by apply IH]. split; [|by apply IH].
  intros y [_ Hy]%list_elem_of_filter. by apply Hx.
Qed.

Lemma elem_of_take_elem (x : string) n l : x ∈ take n l -> x ∈ l.
Proof. intros (i & Hi & _)%elem_of_take. by eapply list_elem_of_lookup_2. Qed.

Lemma descending_take n l : descending key l -> descending key (take n l).
Proof.
  revert n. induction l as [|x l IH]; intros [|n]; try done.
  intros [Hx Hl]. simpl. split; [|by apply IH].
  intros y Hy%elem_of_take_elem. by apply Hx.
Qed.

Lemma descending_app_le l1 l2 u v :
  descending key (l1 ++ l2) -> u ∈ l1 -> v ∈ l2 -> key v <= key u.
Proof.
  induction l1 as [|x l1 IH]; [by intros _ ?%elem_of_nil|].
  simpl. intros [Hx Hl] [->|Hu]%elem_of_cons Hv.
  - apply Hx, elem_of_app. auto.
  - by apply IH.
Qed.

End RankingFacts.

Lemma same_domain_links_raises site base_url domain hrefs href :
  href ∈ hrefs -> urljoin site base_url href = None ->
  same_domain_links site base_url domain hrefs = None.
Proof.
  induction hrefs as [|h hrefs IH]; [by intros ?%elem_of_nil|].
  simpl. intros [->|Hin]%elem_of_cons Hj.
  - by rewrite Hj.
  - destruct (urljoin site base_url h); [|done]. by rewrite IH.
Qed.

(** X4: what [find_related_pages] returns is at most 3 links, all different,
    each with the netloc of [base_url] and a positive score, in descending
    order of score. *)
Theorem find_related_pages_shape site (order : SetOrder) hrefs base_url related :
  find_related_pages site order hrefs base_url = Some related ->
  (length related <= 3)%nat
  /\ NoDup related
  /\ descending score_url related
  /\ (forall u, u ∈ related ->
        netloc site u = netloc site base_url /\ 0 < score_url u).
Proof.
  intros Hf. split_and!.
  - revert Hf. unfold find_related_pages.
    destruct (same_domain_links _ _ _ _); [|done]. intros [= <-].
    rewrite length_take. lia.
  - by eapply find_related_pages_NoDup.
  - revert Hf. unfold find_related_pages.
    destruct (same_domain_links _ _ _ _); [|done]. intros [= <-].
    apply descending_take, descending_filter, sorted_desc_descending.
  - intros u Hu. by eapply find_related_pages_elem.
Qed.

Lemma find_related_pages_shape_witness :
  (length ["https://site.com/menu-d"; "https://site.com/menu-c";
           "https://site.com/menu-b"] <= 3)%nat
  /\ NoDup ["https://site.com/menu-d"; "https://site.com/menu-c";
            "https://site.com/menu-b"]
  /\ descending score_url ["https://site.com/menu-d"; "https://site.com/menu-c";
                           "https://site.com/menu-b"]
  /\ (forall u, u ∈ ["https://site.com/menu-d"; "https://site.com/menu-c";
                     "https://site.com/menu-b"] ->
        netloc Demo.site u = netloc Demo.site Demo.home /\ 0 < score_url u).
Proof.
  apply (find_related_pages_shape Demo.site Demo.reverse_order
           ["/menu-a"; "/menu-b"; "/menu-c"; "/menu-d";
            "https://other.com/happy-hour"; "/about"] Demo.home).
  vm_compute. reflexivity.
Defined.

(** X5: whatever order the set iterates in, the links returned are the best
    ones: a same-domain link with a positive score that is left out scores no
    more than any link returned, and that only happens when 3 links are
    returned. *)
Theorem find_related_pages_top site (order : SetOrder) hrefs base_url cands related v :
  same_domain_links site base_url (netloc site base_url) hrefs = Some cands ->
  find_related_pages site order hrefs base_url = Some related ->
  v ∈ cands -> 0 < score_url v ->
  v ∈ related
  \/ (length related = 3%nat /\ forall u, u ∈ related -> score_url v <= score_url u).
Proof.
  intros Hc. unfold find_related_pages. rewrite Hc. intros [= <-] Hv Hpos.
  set (L := filter (fun u => 0 < score_url u) (sorted_desc score_url (order cands))).
  assert (v ∈ L) as HvL.
  { apply list_elem_of_filter. split; [done|].
    by apply elem_of_sorted_desc, set_iter_elem. }
  assert (descending score_url (take 3 L ++ drop 3 L)) as Hdesc.
  { rewrite take_drop. apply descending_filter, sorted_desc_descending. }
  rewrite <- (take_drop 3 L) in HvL.
  apply elem_of_app in HvL as [HvL|HvL]; [by left|]. right. split.
  - assert (length (drop 3 L) <> 0%nat) as Hd by (by destruct (drop 3 L); [apply elem_of_nil in HvL|]).
    rewrite length_drop in Hd. rewrite length_take. lia.
  - intros u Hu. by eapply descending_app_le.
Qed.

Lemma find_related_pages_top_witness :
  "https://site.com/menu-a" ∈ ["https://site.com/menu-d"; "https://site.com/menu-c";
                                "https://site.com/menu-b"]
  \/ (length ["https://site.com/menu-d"; "https://site.com/menu-c";
              "https://site.com/menu-b"] = 3%nat
      /\ forall u, u ∈ ["https://site.com/menu-d"; "https://site.com/menu-c";
                        "https://site.com/menu-b"] ->
                   score_url "https://site.com/menu-a" <= score_url u).
Proof.
  apply (find_related_pages_top Demo.site Demo.reverse_order
           ["/menu-a"; "/menu-b"; "/menu-c"; "/menu-d";
            "https://other.com/happy-hour"; "/about"] Demo.home
           ["https://site.com/menu-a"; "https://site.com/menu-b";
            "https://site.com/menu-c"; "https://site.com/menu-d";
            "https://site.com/about"]).
  - vm_compute. reflexivity.
  - vm_compute. reflexivity.
  - apply list_elem_of_here.
  - reflexivity.
Defined.

(** ** The crawl as a whole *)

Section CrawlFacts.
Context (site : Site) (order : SetOrder) (base_url : string).

Local Abbreviation body := (loop_body site order base_url).
Local Abbreviation reach := (reachable site order base_url).
Local Abbreviation loop := (crawl_loop site order base_url).

Lemma loop_cond_init : loop_cond (init_state base_url) = true.
Proof.
  unfold loop_cond. cbn [urls_to_visit init_state visited].
  apply bool_decide_eq_true. rewrite size_empty. unfold max_pages. lia.
Qed.

Lemma loop_cond_empty_queue st : urls_to_visit st = [] -> loop_cond st = false.
Proof. unfold loop_cond. by intros ->. Qed.

(** When the first iteration leaves the queue empty, the crawl is over. *)
Lemma crawl_single_page fuel :
  urls_to_visit (body (init_state base_url)) = [] ->
  (1 <= fuel)%nat ->
  scrape_with_crawl site order fuel base_url
  = Some (all_snippets (body (init_state base_url))).
Proof.
  intros Hq Hfuel. unfold scrape_with_crawl.
  destruct fuel as [|fuel]; [lia|]. cbn [crawl_loop]. rewrite loop_cond_init.
  destruct fuel; cbn [crawl_loop]; by rewrite (loop_cond_empty_queue _ Hq).
Qed.

Lemma snippets_ok_mark seen snippets c :
  snippets_ok seen snippets -> c ∉ seen ->
  snippets_ok (seen ∪ {[ c ]}) snippets
  /\ forall t, snippets_ok (seen ∪ {[ c ]}) (snippets ++ [(c, t)]).
Proof.
  intros (Hnd & Hin & Hlen) Hc.
  assert (size (seen ∪ {[ c ]}) = S (size seen)) as Hsize.
  { rewrite size_union by set_solver. rewrite size_singleton. lia. }
  split.
  - split_and!; [done | | lia]. intros u Hu. apply elem_of_union. auto.
  - intros t. unfold snippets_ok. rewrite map_app, length_app. simpl. split_and!.
    + apply NoDup_app. split_and!; [done | | apply NoDup_singleton].
      intros u Hu ->%list_elem_of_singleton. by apply Hc, Hin.
    + intros u [Hu| ->%list_elem_of_singleton]%elem_of_app;
        apply elem_of_union; [by left; apply Hin | by right; apply elem_of_singleton].
    + lia.
Qed.

Lemma loop_body_snippets_ok st :
  snippets_ok (visited st) (all_snippets st) ->
  snippets_ok (visited (body st)) (all_snippets (body st)).
Proof.
  unfold loop_body. destruct (urls_to_visit st) as [|c queue]; [done|].
  intros Hok. destruct (decide (c ∈ visited st)) as [|Hc]; [done|].
  destruct (snippets_ok_mark _ _ c Hok Hc) as [Hsame Happ].
  body_cases; auto.
Qed.

Lemma reachable_snippets_ok st : reach st -> snippets_ok (visited st) (all_snippets st).
Proof.
  induction 1 as [|st _ IH _]; [|by apply loop_body_snippets_ok].
  split_and!; simpl; [constructor | by intros ? ?%elem_of_nil | lia].
Qed.

Lemma loop_body_relevant st :
  (forall u, u ∈ visited st \/ u ∈ urls_to_visit st -> u = base_url \/ 0 < score_url u) ->
  forall u, u ∈ visited (body st) \/ u ∈ urls_to_visit (body st) ->
            u = base_url \/ 0 < score_url u.
Proof.
  unfold loop_body. destruct (urls_to_visit st) as [|c queue] eqn:E; [by rewrite E|].
  intros Hst.
  assert (forall u, u ∈ visited st ∪ {[ c ]} \/ u ∈ queue ->
                    u = base_url \/ 0 < score_url u) as Hpop.
  { intros u [[Hu| ->%elem_of_singleton]%elem_of_union|Hu]; apply Hst;
      rewrite ?elem_of_cons; auto. }
  body_cases; intros u Hu; try (apply Hpop, Hu);
    try (apply Hst; rewrite elem_of_cons; tauto).
  - destruct Hu as [Hu|Hu]; [by apply Hpop; left|].
    apply enqueue_related_elem in Hu as [Hu|Hu]; [by apply Hpop; right|].
    right. eapply find_related_pages_elem; eauto.
  - destruct Hu as [Hu|Hu]; [by apply Hpop; left|].
    apply enqueue_links_elem in Hu as [Hu|[_ Hu]]; [by apply Hpop; right|by right].
Qed.

Lemma loop_body_snippet_source st :
  Forall (snippet_source site) (all_snippets st) ->
  Forall (snippet_source site) (all_snippets (body st)).
Proof.
  unfold loop_body. destruct (urls_to_visit st) as [|c queue]; [done|].
  intros Hst.
  destruct (decide (c ∈ visited st)); [done|].
  destruct (PyStr.endswith (PyStr.lower c) ".pdf") eqn:Hpdf; simpl.
  - destruct (PyStr.truthy _) eqn:Ht; [|done].
    apply Forall_app. split; [done|]. apply Forall_singleton.
    unfold snippet_source. simpl. rewrite Hpdf. split; [done|].
    intros Hempty. by rewrite Hempty in Ht.
  - destruct (requests_get site c) as [content|] eqn:Hget; [|done].
    destruct (html_parse site content) as [[text hrefs]|] eqn:Hparse; [|done].
    assert (Forall (snippet_source site) (all_snippets st ++ [(c, text)])) as Happ.
    { apply Forall_app. split; [done|]. apply Forall_singleton.
      unfold snippet_source. simpl. rewrite Hpdf. eauto. }
    destruct (decide (c = base_url)); [|done].
    by destruct (find_related_pages _ _ _ _).
Qed.

(** After the first iteration the snippet list is empty with an empty queue,
    or it begins with the entry page. *)
Lemma reachable_entry_first st :
  reach st ->
  st = init_state base_url
  \/ (all_snippets st = [] /\ urls_to_visit st = [])
  \/ (exists t rest, all_snippets st = (base_url, t) :: rest).
Proof.
  induction 1 as [|st _ IH Hc]; [by left|]. right.
  destruct IH as [->|[[_ Hq]|(t & rest & Hs)]].
  - unfold loop_body, init_state. simpl.
    rewrite decide_False by apply not_elem_of_empty.
    body_cases; eauto.
  - by rewrite (loop_cond_empty_queue _ Hq) in Hc.
  - right. destruct (loop_body_snippets_prefix site order base_url st) as [more Hm].
    rewrite Hm, Hs. simpl. eauto.
Qed.

End CrawlFacts.

Lemma reachable_relevant site order base_url st u :
  reachable site order base_url st ->
  u ∈ visited st \/ u ∈ urls_to_visit st -> u = base_url \/ 0 < score_url u.
Proof.
  intros Hr. revert u. induction Hr as [|st _ IH _]; [|by apply loop_body_relevant].
  simpl. intros u [Hu|Hu%list_elem_of_singleton]; [set_solver | by left].
Qed.

Lemma reachable_snippet_source site order base_url st :
  reachable site order base_url st -> Forall (snippet_source site) (all_snippets st).
Proof.
  induction 1 as [|st _ IH _]; [constructor | by apply loop_body_snippet_source].
Qed.

(** X6: one href on the entry page that [urljoin] cannot resolve makes
    [find_related_pages] raise; the snippet of the entry page is kept, nothing
    is enqueued, and the crawl returns that one snippet. *)
Theorem entry_bad_href_stops_crawl site order base_url content text hrefs href fuel :
  PyStr.endswith (PyStr.lower base_url) ".pdf" = false ->
  requests_get site base_url = Some content ->
  html_parse site content = Some (text, hrefs) ->
  href ∈ hrefs -> urljoin site base_url href = None ->
  (1 <= fuel)%nat ->
  scrape_with_crawl site order fuel base_url = Some [(base_url, text)].
Proof.
  intros Hpdf Hget Hparse Hin Hbad Hfuel.
  assert (loop_body site order base_url (init_state base_url)
          = {| visited := ∅ ∪ {[ base_url ]}; urls_to_visit := [];
               all_snippets := [(base_url, text)] |}) as Hbody.
  { unfold loop_body, init_state. simpl.
    rewrite decide_False by apply not_elem_of_empty.
    rewrite Hpdf, Hget, Hparse. rewrite decide_True by done.
    unfold find_related_pages.
    by rewrite (same_domain_links_raises _ _ _ _ _ Hin Hbad). }
  rewrite crawl_single_page by (by rewrite ?Hbody). by rewrite Hbody.
Qed.

Lemma entry_bad_href_stops_crawl_witness :
  scrape_with_crawl Flaky.site Demo.discovery_order 6 Flaky.home
  = Some [(Flaky.home, "Welcome")].
Proof.
  apply (entry_bad_href_stops_crawl _ _ _ Flaky.home "Welcome"
           ["/happy-hour"; "//["; "/specials"] "//[").
  - reflexivity.
  - reflexivity.
  - reflexivity.
  - apply list_elem_of_further, list_elem_of_here.
  - reflexivity.
  - lia.
Defined.

(** X7: with fuel for [max_pages] iterations a crawl returns, and what it
    returns is at most 6 snippets, no two of them with the same URL. *)
Theorem crawl_snippets_distinct_bounded site order fuel base_url :
  (6 <= fuel)%nat ->
  exists snippets,
    scrape_with_crawl site order fuel base_url = Some snippets
    /\ (length snippets <= 6)%nat
    /\ NoDup (map fst snippets).
Proof.
  intros Hfuel.
  destruct (scrape_with_crawl_total site order base_url fuel Hfuel) as [snippets Hs].
  exists snippets. split; [done|].
  apply scrape_with_crawl_reachable in Hs as (st & Hr & _ & <-).
  destruct (reachable_snippets_ok _ _ _ _ Hr) as (Hnd & _ & Hlen).
  pose proof (reachable_size _ _ _ _ Hr) as Hsize. unfold max_pages in Hsize.
  split; [lia | done].
Qed.

Lemma crawl_snippets_distinct_bounded_witness :
  exists snippets,
    scrape_with_crawl Demo.site Demo.reverse_order 6 Demo.home = Some snippets
    /\ (length snippets <= 6)%nat
    /\ NoDup (map fst snippets).
Proof.
  apply (crawl_snippets_distinct_bounded Demo.site Demo.reverse_order 6 Demo.home).
  lia.
Defined.

(** X8: with fuel for [max_pages] iterations a crawl returns, and every
    snippet it returns is the entry page's or comes from a URL with the entry
    URL's netloc and a positive score. *)
Theorem crawl_snippets_relevant site order fuel base_url :
  (6 <= fuel)%nat ->
  exists snippets,
    scrape_with_crawl site order fuel base_url = Some snippets
    /\ forall s, s ∈ snippets ->
         fst s = base_url
         \/ (netloc site (fst s) = netloc site base_url /\ 0 < score_url (fst s)).
Proof.
  intros Hfuel.
  destruct (scrape_with_crawl_total site order base_url fuel Hfuel) as [snippets Hs].
  exists snippets. split; [done|].
  apply scrape_with_crawl_reachable in Hs as (st & Hr & _ & <-). intros s Hs.
  destruct (reachable_snippets_ok _ _ _ _ Hr) as (_ & Hin & _).
  assert (fst s ∈ visited st) as Hv by (by apply Hin, list_elem_of_fmap_2).
  destruct (reachable_same_site _ _ _ _ (fst s) Hr (or_introl Hv)) as [|Hn]; [by left|].
  destruct (reachable_relevant _ _ _ _ (fst s) Hr (or_introl Hv)) as [|Hp]; [by left|].
  by right.
Qed.

Lemma crawl_snippets_relevant_witness :
  exists snippets,
    scrape_with_crawl Demo.site Demo.reverse_order 6 Demo.home = Some snippets
    /\ forall s, s ∈ snippets ->
         fst s = Demo.home
         \/ (netloc Demo.site (fst s) = netloc Demo.site Demo.home
             /\ 0 < score_url (fst s)).
Proof.
  apply (crawl_snippets_relevant Demo.site Demo.reverse_order 6 Demo.home). lia.
Defined.

(** X9: with fuel for [max_pages] iterations a crawl returns, and the entry
    page comes first: the list is empty or its first snippet has the entry
    URL. *)
Theorem crawl_result_starts_with_entry site order fuel base_url :
  (6 <= fuel)%nat ->
  exists snippets,
    scrape_with_crawl site order fuel base_url = Some snippets
    /\ (snippets = [] \/ exists t rest, snippets = (base_url, t) :: rest).
Proof.
  intros Hfuel.
  destruct (scrape_with_crawl_total site order base_url fuel Hfuel) as [snippets Hs].
  exists snippets. split; [done|].
  apply scrape_with_crawl_reachable in Hs as (st & Hr & Hc & <-).
  destruct (reachable_entry_first _ _ _ _ Hr) as [->|[[Hs _]|Hs]]; [|auto..].
  by rewrite loop_cond_init in Hc.
Qed.

Lemma crawl_result_starts_with_entry_witness :
  exists snippets,
    scrape_with_crawl Patchy.site Demo.discovery_order 6 Patchy.home = Some snippets
    /\ (snippets = [] \/ exists t rest, snippets = (Patchy.home, t) :: rest).
Proof.
  apply (crawl_result_starts_with_entry Patchy.site Demo.discovery_order 6 Patchy.home).
  lia.
Defined.

(** X10: when the entry page cannot be fetched or parsed, the crawl visits
    nothing else and returns the empty list. *)
Theorem entry_failure_gives_nothing site order base_url fuel :
  PyStr.endswith (PyStr.lower base_url) ".pdf" = false ->
  (requests_get site base_url = None
   \/ exists content, requests_get site base_url = Some content
                      /\ html_parse site content = None) ->
  (1 <= fuel)%nat ->
  scrape_with_crawl site order fuel base_url = Some [].
Proof.
  intros Hpdf Hfail Hfuel.
  assert (loop_body site order base_url (init_state base_url)
          = {| visited := ∅ ∪ {[ base_url ]}; urls_to_visit := [];
               all_snippets := [] |}) as Hbody.
  { unfold loop_body, init_state. simpl.
    rewrite decide_False by apply not_elem_of_empty. rewrite Hpdf.
    destruct Hfail as [-> | (content & -> & ->)]; done. }
  rewrite crawl_single_page by (by rewrite ?Hbody). by rewrite Hbody.
Qed.

Lemma entry_failure_gives_nothing_witness :
  scrape_with_crawl Demo.offline Demo.discovery_order 6 Demo.home = Some [].
Proof.
  apply entry_failure_gives_nothing.
  - reflexivity.
  - left. reflexivity.
  - lia.
Defined.

(** X11: when the entry URL ends with [.pdf], the crawl is that one
    document: its text as the only snippet, or nothing when the text is
    empty. *)
Theorem entry_pdf_is_whole_crawl site order base_url fuel :
  PyStr.Suffix ".pdf" (PyStr.lower base_url) ->
  (1 <= fuel)%nat ->
  scrape_with_crawl site order fuel base_url
  = Some (if decide (extract_text_from_pdf_url site base_url = EmptyString) then []
          else [(base_url, extract_text_from_pdf_url site base_url)]).
Proof.
  intros Hpdf%endswith_spec Hfuel.
  assert (loop_body site order base_url (init_state base_url)
          = {| visited := ∅ ∪ {[ base_url ]}; urls_to_visit := [];
               all_snippets :=
                 if PyStr.truthy (extract_text_from_pdf_url site base_url)
                 then [(base_url, extract_text_from_pdf_url site base_url)] else [] |})
    as Hbody.
  { unfold loop_body, init_state. simpl.
    rewrite decide_False by apply not_elem_of_empty. by rewrite Hpdf. }
  rewrite crawl_single_page by (by rewrite ?Hbody). rewrite Hbody. simpl.
  destruct (extract_text_from_pdf_url site base_url); by case_decide.
Qed.

Lemma entry_pdf_is_whole_crawl_witness :
  scrape_with_crawl Demo.site Demo.discovery_order 6 "https://site.com/specials.pdf"
  = Some (if decide (extract_text_from_pdf_url Demo.site "https://site.com/specials.pdf"
                     = EmptyString) then []
          else [("https://site.com/specials.pdf",
                 extract_text_from_pdf_url Demo.site "https://site.com/specials.pdf")]).
Proof.
  apply entry_pdf_is_whole_crawl.
  - exists "https://site.com/specials". reflexivity.
  - lia.
Defined.

(** X12: on a later page, an href that [urljoin] cannot resolve ends the
    link loop: the hrefs that follow it are never looked at, and the queue is
    what the hrefs before it made it. *)
Theorem enqueue_links_stops_at_bad_href site base_url current_url seen before bad after queue :
  urljoin site current_url bad = None ->
  enqueue_links site base_url current_url seen (before ++ bad :: after) queue
  = enqueue_links site base_url current_url seen before queue.
Proof.
  intros Hbad. revert queue.
  induction before as [|h before IH]; intros queue; simpl.
  - by rewrite Hbad.
  - destruct (urljoin site current_url h); [|done]. apply IH.
Qed.

Lemma enqueue_links_stops_at_bad_href_witness :
  enqueue_links Flaky.site Flaky.home "https://site.com/happy-hour" {[ Flaky.home ]}
    (["/drinks"] ++ "//[" :: ["/menu"]) []
  = enqueue_links Flaky.site Flaky.home "https://site.com/happy-hour" {[ Flaky.home ]}
      ["/drinks"] [].
Proof.
  apply enqueue_links_stops_at_bad_href. reflexivity.
Defined.

Lemma enqueue_related_appends seen related queue :
  exists new, enqueue_related seen related queue = queue ++ new.
Proof.
  unfold enqueue_related. revert queue.
  induction related as [|r related IH]; intros queue; simpl.
  - exists []. by rewrite app_nil_r.
  - unfold enqueue at 2. case_decide; [|apply IH].
    destruct (IH (queue ++ [r])) as [new ->]. exists (r :: new).
    by rewrite <- app_assoc.
Qed.

Lemma enqueue_links_appends site base_url current_url seen hrefs queue :
  exists new, enqueue_links site base_url current_url seen hrefs queue = queue ++ new.
Proof.
  revert queue. induction hrefs as [|h hrefs IH]; intros queue; simpl.
  - exists []. by rewrite app_nil_r.
  - destruct (urljoin site current_url h) as [a|]; [|exists []; by rewrite app_nil_r].
    repeat case_decide; try apply IH.
    destruct (IH (queue ++ [a])) as [new ->]. exists (a :: new).
    by rewrite <- app_assoc.
Qed.

(** X13: the queue is first-in first-out: an iteration takes the URL at the
    front, leaves the other queued URLs in their places, and puts whatever it
    discovers behind them. *)
Theorem queue_is_fifo site order base_url st :
  exists new,
    urls_to_visit (loop_body site order base_url st) = tail (urls_to_visit st) ++ new.
Proof.
  unfold loop_body. destruct (urls_to_visit st) as [|c queue] eqn:E.
  - exists []. by rewrite E.
  - simpl. body_cases;
      try (exists []; by rewrite app_nil_r);
      [apply enqueue_related_appends | apply enqueue_links_appends].
Qed.

(** X14: with fuel for [max_pages] iterations a crawl returns, and every
    snippet it returns carries the text of its own page: for a URL that ends
    with [.pdf] the text that the PDF extraction gave, which is not empty;
    for any other URL the text that the parse of the fetched page gave. *)
Theorem snippets_come_from_their_pages site order fuel base_url :
  (6 <= fuel)%nat ->
  exists snippets,
    scrape_with_crawl site order fuel base_url = Some snippets
    /\ Forall (snippet_source site) snippets.
Proof.
  intros Hfuel.
  destruct (scrape_with_crawl_total site order base_url fuel Hfuel) as [snippets Hs].
  exists snippets. split; [done|].
  apply scrape_with_crawl_reachable in Hs as (st & Hr & _ & <-).
  by eapply reachable_snippet_source.
Qed.

Lemma snippets_come_from_their_pages_witness :
  exists snippets,
    scrape_with_crawl Demo.site Demo.discovery_order 6 Demo.home = Some snippets
    /\ Forall (snippet_source Demo.site) snippets.
Proof.
  apply (snippets_come_from_their_pages Demo.site Demo.discovery_order 6 Demo.home). lia.
Defined.

(** ** Candidate selection *)

Section SelectionFacts.

Lemma str_length_app a b :
  String.length (a +:+ b) = (String.length a + String.length b)%nat.
Proof. induction a as [|c a IH]; [done|]. rewrite app_String. simpl. by rewrite IH. Qed.

Lemma slice_to_app a b : PyStr.slice_to (String.length a) (a +:+ b) = a.
Proof.
  induction a as [|c a IH]; [by destruct b|]. rewrite app_String. simpl. by rewrite IH.
Qed.

(** What [finditer] returns: for some tail [t] of the text on which the
    pattern matches, the part of [t] that the match covers. *)
Lemma finditer_from_elem r skip s m :
  m ∈ Re.finditer_from r skip s ->
  exists t rest, PyStr.Suffix t s /\ Re.match_prefix r t = Some rest
                 /\ m = PyStr.slice_to (String.length t - String.length rest) t.
Proof.
  revert skip. induction s as [|c s IH]; intros skip.
  - destruct skip; simpl; [|by intros ?%elem_of_nil].
    destruct (Re.match_prefix r EmptyString) as [rest|] eqn:Hm; simpl.
    + intros [->|?%elem_of_nil]%elem_of_cons; [|done].
      exists EmptyString, rest. split_and!; [apply Suffix_refl | done | done].
    + by intros ?%elem_of_nil.
  - assert (forall k, m ∈ Re.finditer_from r k s ->
              exists t rest, PyStr.Suffix t (String c s) /\ Re.match_prefix r t = Some rest
                 /\ m = PyStr.slice_to (String.length t - String.length rest) t) as Hs.
    { intros k (t & rest & Ht & Hm & ->)%IH. exists t, rest.
      split_and!; [by apply Suffix_String | done | done]. }
    destruct skip as [|skip]; cbn [Re.finditer_from]; [|apply Hs].
    destruct (Re.match_prefix r (String c s)) as [rest|] eqn:Hm; [|apply Hs].
    intros [->|Hin]%elem_of_cons; [|by eapply Hs].
    exists (String c s), rest. split_and!; [apply Suffix_refl | done | done].
Qed.

Lemma lits_exec w k s rest :
  Re.exec (Re.lits w) k s = Some rest ->
  exists s1 s2, s = s1 +:+ s2 /\ PyStr.lower s1 = PyStr.lower w /\ k s2 = Some rest.
Proof.
  revert s. induction w as [|c w IH]; intros s; simpl.
  - intros Hk. by exists EmptyString, s.
  - destruct s as [|x s]; [done|].
    destruct (Ascii.eqb_spec (PyStr.lower_char x) (PyStr.lower_char c)) as [Hx|]; [|done].
    intros (s1 & s2 & -> & Hl & Hk)%IH.
    exists (String x s1), s2. split_and!; [done | | done]. simpl. by rewrite Hx, Hl.
Qed.

Lemma indicator_match w1 w2 R t rest :
  Re.exec (Re.Cat (Re.Alt (Re.lits w1) (Re.lits w2)) R) Some t = Some rest ->
  exists w s1 s2, (w = w1 \/ w = w2) /\ t = s1 +:+ s2
                  /\ PyStr.lower s1 = PyStr.lower w /\ Re.exec R Some s2 = Some rest.
Proof.
  cbn [Re.exec].
  destruct (Re.exec (Re.lits w1) (Re.exec R Some) t) as [r|] eqn:H1.
  - intros [= ->]. apply lits_exec in H1 as (s1 & s2 & ? & ? & ?).
    exists w1, s1, s2. auto.
  - intros (s1 & s2 & ? & ? & ?)%lits_exec. exists w2, s1, s2. auto.
Qed.

Lemma happy_hour_match_starts t rest :
  Re.match_prefix HAPPY_HOUR_REGEX t = Some rest ->
  exists w m, (w = "happy hour" \/ w = "hh")
              /\ PyStr.slice_to (String.length t - String.length rest) t = m
              /\ PyStr.Prefix w (PyStr.lower m).
Proof.
  unfold Re.match_prefix, HAPPY_HOUR_REGEX.
  intros (w & s1 & s2 & Hw & -> & Hl & (mid & [p ->] & [= ->])%exec_suffix)%indicator_match.
  exists w, (s1 +:+ p). split_and!; [done | |].
  - rewrite <- str_app_assoc, str_length_app.
    replace (String.length (s1 +:+ p) + String.length rest - String.length rest)%nat
      with (String.length (s1 +:+ p)) by lia.
    apply slice_to_app.
  - exists (PyStr.lower p). rewrite lower_app, Hl. by destruct Hw as [-> | ->].
Qed.

End SelectionFacts.

(** X15: whichever strategy produced it, a candidate has the URL of one of
    the snippets and a text that occurs in that snippet's text. *)
Theorem candidates_from_snippets (snippets : list snippet) (c : candidate) :
  c ∈ candidates snippets ->
  exists s, s ∈ snippets /\ url c = fst s /\ PyStr.Substring (text c) (snd s).
Proof.
  unfold candidates. destruct (regex_candidates snippets) as [|c0 cs] eqn:Hre.
  - intros (s & -> & Hs)%list_elem_of_fmap. exists s. split_and!; [done | done |].
    destruct (slice_to_prefix 2000 (snd s)) as [r Hr].
    exists EmptyString, r. by rewrite app_empty.
  - rewrite <- Hre. apply regex_candidates_from_snippets.
Qed.

Lemma candidates_from_snippets_witness :
  exists s, s ∈ [("https://site.com/menu-a", "Happy Hour runs 3pm-6pm daily")]
            /\ url {| url := "https://site.com/menu-a"; text := "Happy Hour runs 3pm-6pm" |}
               = fst s
            /\ PyStr.Substring
                 (text {| url := "https://site.com/menu-a";
                          text := "Happy Hour runs 3pm-6pm" |}) (snd s).
Proof.
  apply candidates_from_snippets. vm_compute. apply list_elem_of_here.
Defined.

Lemma candidates_nil_inv (snippets : list snippet) :
  candidates snippets = [] -> snippets = [].
Proof.
  unfold candidates. destruct (regex_candidates snippets); [|done].
  by destruct snippets.
Qed.

(** X16: the selector hands something on whenever the crawl found
    something: the candidate list is empty only when there is no snippet. *)
Theorem candidates_empty_iff (snippets : list snippet) :
  candidates snippets = [] <-> snippets = [].
Proof. split; [apply candidates_nil_inv | by intros ->]. Qed.

(** X17: a candidate made from a match of the pattern is not empty and
    begins, case apart, with [happy hour] or with [hh]. *)
Theorem regex_candidates_start_with_indicator (snippets : list snippet) (c : candidate) :
  c ∈ regex_candidates snippets ->
  text c <> EmptyString
  /\ (PyStr.Prefix "happy hour" (PyStr.lower (text c))
      \/ PyStr.Prefix "hh" (PyStr.lower (text c))).
Proof.
  unfold regex_candidates. rewrite list_elem_of_In, in_flat_map.
  intros (s & _ & Hc%list_elem_of_In).
  apply list_elem_of_fmap in Hc as (m & -> & Hm). simpl.
  apply finditer_from_elem in Hm as (t & rest & _ & Hmatch & ->).
  apply happy_hour_match_starts in Hmatch as (w & m & Hw & -> & Hp).
  split.
  - intros ->. destruct Hp as [r Hr]. by destruct Hw as [-> | ->].
  - destruct Hw as [-> | ->]; auto.
Qed.

Lemma regex_candidates_start_with_indicator_witness :
  text {| url := "https://site.com/menu-a"; text := "Happy Hour runs 3pm-6pm" |}
  <> EmptyString
  /\ (PyStr.Prefix "happy hour"
        (PyStr.lower (text {| url := "https://site.com/menu-a";
                              text := "Happy Hour runs 3pm-6pm" |}))
      \/ PyStr.Prefix "hh"
           (PyStr.lower (text {| url := "https://site.com/menu-a";
                                 text := "Happy Hour runs 3pm-6pm" |}))).
Proof.
  apply (regex_candidates_start_with_indicator
           [("https://site.com/menu-a", "Happy Hour runs 3pm-6pm daily")]).
  vm_compute. apply list_elem_of_here.
Defined.

(** ** Whitespace clean-up *)

Section TextFacts.

(** Induction that follows the recursion of [splitlines], which looks two
    characters ahead. *)
Lemma string_pair_ind (P : string -> Prop) :
  P EmptyString ->
  (forall c, P (String c EmptyString)) ->
  (forall c x s, P s -> P (String x s) -> P (String c (String x s))) ->
  forall s, P s.
Proof.
  intros H0 H1 H2 s.
  assert (P s /\ forall c, P (String c s)) as [Hs _]; [|done].
  induction s as [|x s [IH1 IH2]]; [auto|]. split; [apply IH2|].
  intros c. by apply H2.
Qed.

Lemma all_chars_app p a b :
  PyText.all_chars p (a +:+ b) = PyText.all_chars p a && PyText.all_chars p b.
Proof.
  induction a as [|c a IH]; [done|]. rewrite app_String. simpl.
  by rewrite IH, andb_assoc.
Qed.

Lemma Forall_cons_head (P : string -> Prop) c l :
  P (String c EmptyString) ->
  (forall h, P h -> P (String c h)) ->
  Forall P l -> Forall P (PyText.cons_head c l).
Proof.
  intros H1 Hc [|h t Hh Ht]; simpl; constructor; auto.
Qed.

(** The lines hold no line boundary, and no character that the text does
    not hold. *)
Lemma splitlines_all_chars p s :
  PyText.all_chars p s = true ->
  Forall (fun l => PyText.all_chars p l = true) (PyText.splitlines s).
Proof.
  induction s as [|c|c x s IH1 IH2] using string_pair_ind.
  - constructor.
  - simpl. rewrite andb_true_r. intros Hc.
    destruct (PyText.is_linebreak c); repeat constructor. simpl. by rewrite Hc.
  - intros Hs. cbn [PyText.all_chars] in Hs.
    apply andb_true_iff in Hs as [Hc Hxs]. pose proof Hxs as Hxs'.
    cbn [PyText.all_chars] in Hxs'. apply andb_true_iff in Hxs' as [Hx Hs].
    cbn [PyText.splitlines]. destruct (PyText.is_linebreak c).
    + destruct (PyText.is_cr c && PyText.is_lf x); constructor; auto.
    + apply Forall_cons_head; [simpl; by rewrite Hc | | by apply IH2].
      intros h Hh. simpl. by rewrite Hc, Hh.
Qed.

Lemma splitlines_no_linebreak s :
  Forall (fun l => PyText.all_chars (fun c => negb (PyText.is_linebreak c)) l = true)
         (PyText.splitlines s).
Proof.
  induction s as [|c|c x s IH1 IH2] using string_pair_ind.
  - constructor.
  - simpl. destruct (PyText.is_linebreak c) eqn:Hc; repeat constructor.
    simpl. by rewrite Hc.
  - cbn [PyText.splitlines]. destruct (PyText.is_linebreak c) eqn:Hc.
    + destruct (PyText.is_cr c && PyText.is_lf x); constructor; auto.
    + apply Forall_cons_head; [simpl; by rewrite Hc | | done].
      intros h Hh. simpl. by rewrite Hc, Hh.
Qed.

(** Stripping. *)
Lemma lstrip_suffix s : PyStr.Suffix (PyText.lstrip s) s.
Proof.
  induction s as [|c s IH]; simpl; [apply Suffix_refl|].
  destruct (PyText.isspace c); [by apply Suffix_String | apply Suffix_refl].
Qed.

Lemma rstrip_prefix s : PyStr.Prefix (PyText.rstrip s) s.
Proof.
  induction s as [|c s [r IH]]; simpl; [by exists EmptyString|].
  destruct (PyText.rstrip s) as [|c' r'].
  - destruct (PyText.isspace c); [by exists (String c s)|].
    exists s. by rewrite app_String, app_empty.
  - exists r. rewrite app_String. by rewrite <- IH.
Qed.

Lemma lstrip_lstrip s : PyText.lstrip (PyText.lstrip s) = PyText.lstrip s.
Proof.
  induction s as [|c s IH]; simpl; [done|].
  destruct (PyText.isspace c) eqn:Hc; [done|]. simpl. by rewrite Hc.
Qed.

Lemma rstrip_rstrip s : PyText.rstrip (PyText.rstrip s) = PyText.rstrip s.
Proof.
  induction s as [|c s IH]; simpl; [done|].
  destruct (PyText.rstrip s) as [|c' r'] eqn:Hr.
  - destruct (PyText.isspace c) eqn:Hc; [done|]. simpl. by rewrite Hc.
  - cbn [PyText.rstrip]. cbn [PyText.rstrip] in IH. by rewrite IH.
Qed.

Lemma rstrip_lstrip_fixed s :
  PyText.rstrip s = s -> PyText.rstrip (PyText.lstrip s) = PyText.lstrip s.
Proof.
  induction s as [|c s IH]; [done|]. intros Hs. cbn [PyText.lstrip].
  destruct (PyText.isspace c) eqn:Hc; [|done]. apply IH.
  cbn [PyText.rstrip] in Hs. destruct (PyText.rstrip s) as [|c' r'].
  - by rewrite Hc in Hs.
  - by injection Hs.
Qed.

Lemma strip_strip s : PyText.strip (PyText.strip s) = PyText.strip s.
Proof.
  unfold PyText.strip.
  rewrite (rstrip_lstrip_fixed (PyText.rstrip s)) by apply rstrip_rstrip.
  apply lstrip_lstrip.
Qed.

Lemma strip_substring s : exists a b, s = a +:+ PyText.strip s +:+ b.
Proof.
  unfold PyText.strip. destruct (rstrip_prefix s) as [b Hb].
  destruct (lstrip_suffix (PyText.rstrip s)) as [a Ha].
  exists a, b. by rewrite <- str_app_assoc, <- Ha.
Qed.

Lemma all_chars_strip p s :
  PyText.all_chars p s = true -> PyText.all_chars p (PyText.strip s) = true.
Proof.
  destruct (strip_substring s) as (a & b & Hs). rewrite Hs at 1.
  rewrite !all_chars_app. by intros [_ [? _]%andb_true_iff]%andb_true_iff.
Qed.

Lemma contains_strip k s :
  PyStr.contains k s = false -> PyStr.contains k (PyText.strip s) = false.
Proof.
  intros Hs. destruct (PyStr.contains k (PyText.strip s)) eqn:Hc; [|done].
  apply contains_spec in Hc as (p & r & Hc).
  destruct (strip_substring s) as (a & b & Hab).
  assert (PyStr.contains k s = true) as Hk; [|congruence].
  apply contains_spec. exists (a +:+ p), (r +:+ b).
  rewrite Hab, Hc. by rewrite !str_app_assoc.
Qed.

Lemma rstrip_all_space s :
  PyText.all_chars PyText.isspace s = true -> PyText.rstrip s = EmptyString.
Proof.
  induction s as [|c s IH]; [done|]. simpl.
  intros [Hc Hs]%andb_true_iff. by rewrite (IH Hs), Hc.
Qed.

Lemma strip_all_space s :
  PyText.all_chars PyText.isspace s = true -> PyText.strip s = EmptyString.
Proof. intros Hs. unfold PyText.strip. by rewrite rstrip_all_space. Qed.

End TextFacts.

Section SplitFacts.
Context (sep : string).

Lemma split_from_nonempty skip s : PyText.split_from sep skip s <> [].
Proof.
  revert skip. induction s as [|c s IH]; intros [|skip]; simpl; try done.
  destruct (PyStr.startswith (String c s) sep); [done|].
  specialize (IH O). by destruct (PyText.split_from sep 0 s).
Qed.

(** The first piece is the text up to the first separator. *)
Lemma split_head_prefix s h t :
  PyText.split_from sep O s = h :: t -> PyStr.Prefix h s.
Proof.
  revert h t. induction s as [|c s IH]; intros h t; simpl.
  - intros [= <- _]. by exists EmptyString.
  - destruct (PyStr.startswith (String c s) sep).
    + intros [= <- _]. by exists (String c s).
    + destruct (PyText.split_from sep 0 s) as [|h' t'] eqn:Hs; simpl.
      * by apply split_from_nonempty in Hs.
      * intros [= <- _]. destruct (IH _ _ eq_refl) as [r Hr].
        exists r. by rewrite app_String, <- Hr.
Qed.

Lemma startswith_trans s h :
  PyStr.Prefix h s -> PyStr.startswith h sep = true -> PyStr.startswith s sep = true.
Proof.
  intros [r ->] [q ->]%startswith_spec. apply startswith_spec.
  exists (q +:+ r). by rewrite str_app_assoc.
Qed.

(** No piece holds the separator. *)
Lemma split_from_no_sep skip s :
  sep <> EmptyString ->
  Forall (fun piece => PyStr.contains sep piece = false) (PyText.split_from sep skip s).
Proof.
  intros Hsep.
  assert (PyStr.contains sep EmptyString = false) as Hempty by (by destruct sep).
  revert skip. induction s as [|c s IH]; intros [|skip]; simpl; auto.
  destruct (PyStr.startswith (String c s) sep) eqn:Hst; [auto|].
  pose proof (IH O) as Hrest.
  destruct (PyText.split_from sep 0 s) as [|h t] eqn:Hs; simpl.
  - by apply split_from_nonempty in Hs.
  - apply Forall_cons in Hrest as [Hh Ht]. constructor; [|done].
    simpl. rewrite Hh, orb_false_r.
    destruct (PyStr.startswith (String c h) sep) eqn:Hch; [|done].
    rewrite <- Hst. symmetry. apply (startswith_trans _ (String c h)); [|done].
    destruct (split_head_prefix _ _ _ Hs) as [r Hr].
    exists r. by rewrite app_String, <- Hr.
Qed.

(** The pieces hold no character that the text does not hold. *)
Lemma split_from_all_chars p skip s :
  PyText.all_chars p s = true ->
  Forall (fun piece => PyText.all_chars p piece = true) (PyText.split_from sep skip s).
Proof.
  revert skip. induction s as [|c s IH]; intros [|skip]; simpl; auto.
  - intros [Hc Hs]%andb_true_iff.
    destruct (PyStr.startswith (String c s) sep); [auto|].
    apply Forall_cons_head; [simpl; by rewrite Hc | | auto].
    intros h Hh. simpl. by rewrite Hc, Hh.
  - intros [_ Hs]%andb_true_iff. auto.
Qed.

(** A text without the separator is its own single piece. *)
Lemma split_no_sep s :
  PyStr.contains sep s = false -> PyText.split sep s = [s].
Proof.
  unfold PyText.split. induction s as [|c s IH]; [done|]. simpl.
  intros [Hst Hc]%orb_false_iff. rewrite Hst.
  assert (PyText.split_from sep 0 s = [s]) as -> by (by destruct s; auto).
  done.
Qed.

End SplitFacts.

Section JoinFacts.

Lemma newline_app rest : newline +:+ rest = String (ascii_of_N 10) rest.
Proof. reflexivity. Qed.

Lemma splitlines_line_then ch rest :
  PyText.all_chars (fun c => negb (PyText.is_linebreak c)) ch = true ->
  PyText.splitlines (ch +:+ newline +:+ rest) = ch :: PyText.splitlines rest.
Proof.
  rewrite newline_app. induction ch as [|c ch IH].
  - intros _. rewrite app_empty. by destruct rest.
  - intros [Hc Hch]%andb_true_iff. apply negb_true_iff in Hc.
    rewrite app_String. cbn [PyText.splitlines]. rewrite Hc.
    by rewrite (IH Hch).
Qed.

Lemma splitlines_single ch :
  ch <> EmptyString ->
  PyText.all_chars (fun c => negb (PyText.is_linebreak c)) ch = true ->
  PyText.splitlines ch = [ch].
Proof.
  induction ch as [|c ch IH]; [done|]. intros _ [Hc Hch]%andb_true_iff.
  apply negb_true_iff in Hc. cbn [PyText.splitlines]. rewrite Hc.
  destruct ch as [|x ch]; [done|]. by rewrite IH.
Qed.

Lemma splitlines_join (l : list string) :
  Forall clean_chunk l -> PyText.splitlines (PyText.join newline l) = l.
Proof.
  induction 1 as [|ch l (Hne & _ & _ & Hlb) Hl IH]; [done|].
  cbn [PyText.join]. destruct l as [|ch' l'].
  - by apply splitlines_single.
  - rewrite splitlines_line_then by done. by rewrite IH.
Qed.

End JoinFacts.

Section CleanFacts.

Lemma clean_chunks_elem text chunk :
  chunk ∈ clean_chunks text ->
  chunk <> EmptyString
  /\ exists raw piece,
       raw ∈ PyText.splitlines text
       /\ piece ∈ PyText.split "  " (PyText.strip raw)
       /\ chunk = PyText.strip piece.
Proof.
  unfold clean_chunks. intros [Ht Hc]%list_elem_of_filter.
  split; [by intros ->|].
  apply list_elem_of_In, in_flat_map in Hc as (line & Hline%list_elem_of_In & Hc%list_elem_of_In).
  apply list_elem_of_fmap in Hline as (raw & -> & Hraw).
  apply list_elem_of_fmap in Hc as (piece & -> & Hpiece). eauto.
Qed.

Lemma clean_chunks_clean text : Forall clean_chunk (clean_chunks text).
Proof.
  apply Forall_forall. intros chunk (Hne & raw & piece & Hraw & Hpiece & ->)%clean_chunks_elem.
  split_and!; [done | apply strip_strip | |].
  - apply contains_strip.
    pose proof (split_from_no_sep "  " O (PyText.strip raw)) as Hsep.
    rewrite Forall_forall in Hsep. by apply Hsep.
  - apply all_chars_strip.
    pose proof (splitlines_no_linebreak text) as Hlb. rewrite Forall_forall in Hlb.
    pose proof (split_from_all_chars "  " (fun c => negb (PyText.is_linebreak c)) O
                  (PyText.strip raw)) as Hp.
    rewrite Forall_forall in Hp. apply Hp; [|done]. by apply all_chars_strip, Hlb.
Qed.

Lemma clean_chunks_join (l : list string) :
  Forall clean_chunk l -> clean_chunks (PyText.join newline l) = l.
Proof.
  intros Hl. unfold clean_chunks. rewrite splitlines_join by done.
  induction Hl as [|ch l (Hne & Hstrip & Hsep & Hlb) _ IH]; [done|].
  cbn [map flat_map]. rewrite Hstrip, (split_no_sep _ _ Hsep). cbn [map app].
  rewrite Hstrip, filter_cons, IH.
  destruct ch; [done|]. by rewrite decide_True.
Qed.

End CleanFacts.

(** X18: the clean-up leaves a text whose lines are exactly the chunks it
    kept, and each of them is in clean form: not empty, with no white space
    at either end, no double space and no line boundary inside. *)
Theorem clean_text_lines (text : string) :
  PyText.splitlines (clean_text text) = clean_chunks text
  /\ Forall clean_chunk (PyText.splitlines (clean_text text)).
Proof.
  assert (PyText.splitlines (clean_text text) = clean_chunks text) as Heq
    by apply splitlines_join, clean_chunks_clean.
  split; [done|]. rewrite Heq. apply clean_chunks_clean.
Qed.

(** X19: cleaning a text that was cleaned already changes nothing. *)
Theorem clean_text_idempotent (text : string) :
  clean_text (clean_text text) = clean_text text.
Proof.
  unfold clean_text.
  by rewrite (clean_chunks_join _ (clean_chunks_clean text)).
Qed.

(** X20: a text made of white space only (the empty text too) is cleaned to
    the empty text. *)
Theorem clean_text_blank (text : string) :
  PyText.all_chars PyText.isspace text = true -> clean_text text = EmptyString.
Proof.
  intros Hsp. unfold clean_text, clean_chunks.
  pose proof (splitlines_all_chars _ _ Hsp) as Hlines.
  induction Hlines as [|raw lines Hraw _ IH]; [done|].
  cbn [map flat_map]. by rewrite (strip_all_space _ Hraw).
Qed.

Lemma clean_text_blank_witness :
  clean_text (" " +:+ newline +:+ "   ") = EmptyString.
Proof. apply clean_text_blank. reflexivity. Defined.

Section Provenance.

Lemma Substring_refl s : PyStr.Substring s s.
Proof.
  exists EmptyString, EmptyString. rewrite app_empty.
  induction s as [|c s IH]; [done|]. by rewrite app_String, <- IH.
Qed.

Lemma Substring_empty s : PyStr.Substring EmptyString s.
Proof. exists EmptyString, s. by rewrite !app_empty. Qed.

Lemma Substring_String c k s : PyStr.Substring k s -> PyStr.Substring k (String c s).
Proof. intros (a & b & ->). by exists (String c a), b. Qed.

Lemma Substring_trans a b c :
  PyStr.Substring a b -> PyStr.Substring b c -> PyStr.Substring a c.
Proof.
  intros (p & q & ->) (p' & q' & ->). exists (p' +:+ p), (q +:+ q').
  by rewrite !str_app_assoc.
Qed.

Lemma Prefix_Substring h s : PyStr.Prefix h s -> PyStr.Substring h s.
Proof. intros [r ->]. exists EmptyString, r. by rewrite app_empty. Qed.

Lemma Prefix_String c h s : PyStr.Prefix h s -> PyStr.Prefix (String c h) (String c s).
Proof. intros [r ->]. exists r. by rewrite app_String. Qed.

Lemma pieces_of_cons_head c s l :
  pieces_of s l -> pieces_of (String c s) (PyText.cons_head c l).
Proof.
  intros [Hh Hl]. destruct l as [|h t]; simpl.
  - split; [by exists s | constructor; [|done]].
    apply Prefix_Substring. by exists s.
  - apply Forall_cons in Hl as [_ Ht]. split; [by apply Prefix_String|].
    constructor; [by apply Prefix_Substring, Prefix_String|].
    eapply Forall_impl; [done|]. intros piece. apply Substring_String.
Qed.

Lemma pieces_of_skip c s l :
  Forall (fun piece => PyStr.Substring piece s) l ->
  pieces_of (String c s) (EmptyString :: l).
Proof.
  intros Hl. split; [by exists (String c s)|].
  constructor; [apply Substring_empty|].
  eapply Forall_impl; [done|]. intros piece. apply Substring_String.
Qed.

Lemma splitlines_pieces s : pieces_of s (PyText.splitlines s).
Proof.
  induction s as [|c|c x s IH1 IH2] using string_pair_ind.
  - split; [done | constructor].
  - simpl. destruct (PyText.is_linebreak c).
    + apply pieces_of_skip. constructor.
    + by apply (pieces_of_cons_head c EmptyString []).
  - cbn [PyText.splitlines]. destruct (PyText.is_linebreak c).
    + destruct (PyText.is_cr c && PyText.is_lf x); apply pieces_of_skip.
      * destruct IH1 as [_ IH1]. eapply Forall_impl; [done|].
        intros piece. apply Substring_String.
      * apply IH2.
    + by apply pieces_of_cons_head.
Qed.

Lemma split_from_pieces sep skip s :
  Forall (fun piece => PyStr.Substring piece s) (PyText.split_from sep skip s)
  /\ (skip = O -> pieces_of s (PyText.split_from sep skip s)).
Proof.
  revert skip. induction s as [|c s IH]; intros skip.
  - assert (pieces_of EmptyString [EmptyString]) as H
      by (split; [by exists EmptyString | constructor; [apply Substring_empty | constructor]]).
    destruct skip; simpl; (split; [apply H | intros _; apply H || done]).
  - destruct skip as [|skip]; simpl.
    + assert (pieces_of (String c s)
                (if PyStr.startswith (String c s) sep
                 then EmptyString :: PyText.split_from sep (Nat.pred (String.length sep)) s
                 else PyText.cons_head c (PyText.split_from sep 0 s))) as H.
      { destruct (PyStr.startswith (String c s) sep).
        - apply pieces_of_skip, (proj1 (IH _)).
        - by apply pieces_of_cons_head, (proj2 (IH O)). }
      split; [apply H | done].
    + split; [|done]. destruct (IH skip) as [Hs _].
      eapply Forall_impl; [done|]. intros piece. apply Substring_String.
Qed.

End Provenance.

(** X21: the clean-up invents nothing: every line of the cleaned text occurs
    in the text that went in. *)
Theorem clean_text_lines_occur (text line : string) :
  line ∈ PyText.splitlines (clean_text text) -> PyStr.Substring line text.
Proof.
  unfold clean_text. rewrite (splitlines_join _ (clean_chunks_clean text)).
  intros (_ & raw & piece & Hraw & Hpiece & ->)%clean_chunks_elem.
  destruct (splitlines_pieces text) as [_ Hlines]. rewrite Forall_forall in Hlines.
  destruct (split_from_pieces "  " O (PyText.strip raw)) as [Hpieces _].
  rewrite Forall_forall in Hpieces.
  assert (forall s, PyStr.Substring (PyText.strip s) s) as Hstrip.
  { intros s. destruct (strip_substring s) as (a & b & Hs). by exists a, b. }
  eapply Substring_trans; [apply Hstrip|].
  eapply Substring_trans; [by apply Hpieces|].
  eapply Substring_trans; [apply Hstrip|]. by apply Hlines.
Qed.

Lemma clean_text_lines_occur_witness :
  PyStr.Substring "3pm - 6pm" (" Happy  Hour " +:+ newline +:+ " 3pm - 6pm   daily ").
Proof.
  apply clean_text_lines_occur. vm_compute.
  do 2 apply list_elem_of_further. apply list_elem_of_here.
Defined.

(** X22: the payload handed to the extraction step is empty exactly when the
    crawl collected no snippet. *)
Theorem user_payload_empty_iff (snippets : list snippet) :
  user_payload snippets = EmptyString <-> snippets = [].
Proof.
  split; [|by intros ->].
  unfold user_payload, prompt_blocks. intros Hp.
  destruct (candidates snippets) as [|c cs] eqn:Hc.
  - by apply candidates_nil_inv.
  - exfalso. revert Hp. cbn [take map PyText.join].
    by destruct (map _ (take 7 cs)).
Qed.

(** * Link expansion, entry page and later pages *)




(** * What the loop keeps *)

Section AfterFailure.
Context (site : Site) (order : SetOrder) (base_url : string).

Local Abbreviation body := (loop_body site order base_url).
Local Abbreviation loop := (crawl_loop site order base_url).

(** What the loop has collected stays collected. *)
Lemma crawl_loop_grows fuel st final :
  loop fuel st = Some final ->
  all_snippets st `prefix_of` all_snippets final /\ visited st ⊆ visited final.
Proof.
  revert st. induction fuel as [|fuel IH]; intros st; simpl;
    destruct (loop_cond st); try done; try (by intros [= <-]).
  intros [Hs Hv]%IH. split.
  - etrans; [apply loop_body_snippets_prefix | done].
  - etrans; [apply loop_body_visited_mono | done].
Qed.

(** A URL that was marked without a snippet never gets one. *)
Lemma loop_body_no_snippet st u :
  u ∈ visited st -> u ∉ map fst (all_snippets st) ->
  u ∉ map fst (all_snippets (body st)).
Proof.
  intros Hu Hs. unfold loop_body. destruct (urls_to_visit st) as [|c queue]; [done|].
  destruct (decide (c ∈ visited st)) as [|Hc]; [done|].
  assert (u ∉ map fst (all_snippets st ++ [(c, EmptyString)])) as Happ.
  { rewrite map_app. simpl. intros [?| ->%list_elem_of_singleton]%elem_of_app; done. }
  assert (forall t, u ∉ map fst (all_snippets st ++ [(c, t)])) as Happ'.
  { intros t. by rewrite map_app in *. }
  body_cases; auto.
Qed.

Lemma crawl_loop_no_snippet fuel st final u :
  loop fuel st = Some final ->
  u ∈ visited st -> u ∉ map fst (all_snippets st) ->
  u ∉ map fst (all_snippets final).
Proof.
  revert st. induction fuel as [|fuel IH]; intros st; simpl;
    destruct (loop_cond st); try done; try (by intros [= <-]).
  intros Hl Hu Hs. apply (IH _ Hl).
  - by apply loop_body_visited_mono.
  - by apply loop_body_no_snippet.
Qed.

(** A page that is fetched and parsed gives its snippet. *)
Lemma loop_body_success st v queue content text hrefs :
  urls_to_visit st = v :: queue -> v ∉ visited st ->
  PyStr.endswith (PyStr.lower v) ".pdf" = false ->
  requests_get site v = Some content ->
  html_parse site content = Some (text, hrefs) ->
  all_snippets (body st) = all_snippets st ++ [(v, text)].
Proof.
  intros Hq Hv Hpdf Hget Hparse. unfold loop_body.
  rewrite Hq. rewrite decide_False by done. rewrite Hpdf, Hget, Hparse.
  body_cases; done.
Qed.

End AfterFailure.

(** * Repeated crawls *)


Section Untied.
Context (site : Site) (order1 order2 : SetOrder) (base_url : string).

(** No two different same-domain links of the entry page that have a
    positive score have the same score. *)
Hypothesis untied :
  forall content text hrefs cands,
    requests_get site base_url = Some content ->
    html_parse site content = Some (text, hrefs) ->
    same_domain_links site base_url (netloc site base_url) hrefs = Some cands ->
    forall u v, u ∈ cands -> v ∈ cands ->
                0 < score_url u -> score_url u = score_url v -> u = v.




End Untied.




(** * Failure isolation *)


(** C7: when the page that is popped cannot be fetched or parsed, the
    iteration marks its URL, appends no snippet and enqueues nothing, and the
    loop goes on with the rest of the queue; whatever fails, the crawl
    returns a list of snippets.  In a running crawl the loop then ends in a
    state that keeps every snippet collected before the failure, never holds
    a snippet for the failed URL, and, when the page budget is not used up,
    has visited the next queued URL and holds its snippet if that page can be
    fetched and parsed. *)
Theorem page_failure_is_isolated site order base_url st u queue :
  urls_to_visit st = u :: queue ->
  u ∉ visited st ->
  PyStr.endswith (PyStr.lower u) ".pdf" = false ->
  (requests_get site u = None
   \/ exists content, requests_get site u = Some content /\ html_parse site content = None) ->
  loop_body site order base_url st
  = {| visited := visited st ∪ {[ u ]}; urls_to_visit := queue;
       all_snippets := all_snippets st |}
  /\ (forall fuel, loop_cond st = true ->
        crawl_loop site order base_url (S fuel) st
        = crawl_loop site order base_url fuel
            {| visited := visited st ∪ {[ u ]}; urls_to_visit := queue;
               all_snippets := all_snippets st |})
  /\ (forall fuel, (6 <= fuel)%nat ->
        exists snippets, scrape_with_crawl site order fuel base_url = Some snippets)
  /\ (reachable site order base_url st -> loop_cond st = true ->
      forall fuel, (6 <= fuel + size (visited st))%nat ->
        exists final,
          crawl_loop site order base_url fuel st = Some final
          /\ loop_cond final = false
          /\ all_snippets st `prefix_of` all_snippets final
          /\ u ∈ visited final
          /\ (u ∉ map fst (all_snippets final))
          /\ (forall v queue',
                queue = v :: queue' -> (size (visited st) + 1 < 6)%nat ->
                v ∈ visited final
                /\ (forall content text hrefs,
                      PyStr.endswith (PyStr.lower v) ".pdf" = false ->
                      requests_get site v = Some content ->
                      html_parse site content = Some (text, hrefs) ->
                      (v, text) ∈ all_snippets final))).
Proof.
  intros Hq Hu Hpdf Hfail.
  set (st' := {| visited := visited st ∪ {[ u ]}; urls_to_visit := queue;
                 all_snippets := all_snippets st |}).
  assert (loop_body site order base_url st = st') as Hbody.
  { unfold loop_body. rewrite Hq. rewrite decide_False by done. rewrite Hpdf.
    destruct Hfail as [-> | (content & -> & ->)]; done. }
  split; [done|]. split; [|split].
  - intros fuel Hc. simpl. by rewrite Hc, Hbody.
  - intros fuel Hfuel. by apply scrape_with_crawl_total.
  - intros Hr Hc fuel Hfuel.
    pose proof (loop_cond_true _ Hc) as [Hlt _]. unfold max_pages in Hlt.
    destruct fuel as [|fuel]; [lia|].
    assert (reachable site order base_url st') as Hr'
      by (rewrite <- Hbody; by apply reach_step).
    pose proof (reachable_queue_ok _ _ _ _ Hr') as Hok'.
    assert (size (visited st') = S (size (visited st))) as Hsize.
    { simpl. rewrite size_union; [rewrite size_singleton; lia|].
      intros x Hx ->%elem_of_singleton. done. }
    destruct (crawl_loop_terminates site order base_url fuel st' Hok') as [final Hfinal];
      [unfold max_pages; lia|].
    exists final.
    destruct (crawl_loop_grows _ _ _ _ _ _ Hfinal) as [Hsn Hvis].
    destruct (crawl_loop_reachable _ _ _ _ _ _ Hr' Hfinal) as [_ Hstop].
    destruct (reachable_snippets_ok _ _ _ _ Hr) as (_ & Hsv & _).
    split_and!; try done.
    + simpl. by rewrite Hc, Hbody.
    + apply Hvis. simpl. apply elem_of_union. right. by apply elem_of_singleton.
    + apply (crawl_loop_no_snippet _ _ _ _ _ _ _ Hfinal); simpl.
      * apply elem_of_union. right. by apply elem_of_singleton.
      * intros Hin. by apply Hu, Hsv.
    + intros v queue' -> Hbudget.
      assert (loop_cond st' = true) as Hc'.
      { unfold loop_cond. simpl. apply bool_decide_eq_true.
        replace (size (visited st ∪ {[u]})) with (S (size (visited st))) by done.
        unfold max_pages. lia. }
      destruct fuel as [|fuel]; simpl in Hfinal; rewrite Hc' in Hfinal; [done|].
      assert (v ∉ visited st') as Hv by (apply Hok', list_elem_of_here).
      destruct (crawl_loop_grows _ _ _ _ _ _ Hfinal) as [Hsn' Hvis'].
      split.
      * apply Hvis'. rewrite (loop_body_marks site order base_url st' v queue' eq_refl Hv).
        apply elem_of_union. right. by apply elem_of_singleton.
      * intros content text hrefs Hvpdf Hget Hparse.
        destruct Hsn' as [more Hmore]. rewrite Hmore.
        rewrite (loop_body_success site order base_url st' v queue' content text hrefs
                   eq_refl Hv Hvpdf Hget Hparse).
        rewrite !elem_of_app, list_elem_of_singleton. auto.
Qed.

Lemma page_failure_is_isolated_witness :
  let st := loop_body Patchy.site Demo.reverse_order Patchy.home
              (init_state Patchy.home) in
  (* the failing page is popped with two URLs behind it and one snippet
     collected *)
  urls_to_visit st = ["https://site.com/happy-hour"; "https://site.com/specials";
                      "https://site.com/menu"]
  /\ all_snippets st = [("https://site.com/", "Welcome")]
  /\ loop_body Patchy.site Demo.reverse_order Patchy.home st
     = {| visited := visited st ∪ {[ "https://site.com/happy-hour" ]};
          urls_to_visit := ["https://site.com/specials"; "https://site.com/menu"];
          all_snippets := all_snippets st |}
  /\ exists final,
       crawl_loop Patchy.site Demo.reverse_order Patchy.home 5 st = Some final
       /\ loop_cond final = false
       /\ all_snippets st `prefix_of` all_snippets final
       /\ "https://site.com/happy-hour" ∈ visited final
       /\ ("https://site.com/happy-hour" ∉ map fst (all_snippets final))
       /\ "https://site.com/specials" ∈ visited final
       /\ ("https://site.com/specials", "Happy hour 4 to 7") ∈ all_snippets final.
Proof.
  intros st.
  destruct (page_failure_is_isolated Patchy.site Demo.reverse_order Patchy.home st
              "https://site.com/happy-hour"
              ["https://site.com/specials"; "https://site.com/menu"])
    as (Hbody & _ & _ & Hrest).
  - reflexivity.
  - apply (bool_decide_unpack _). vm_compute. reflexivity.
  - reflexivity.
  - left. reflexivity.
  - split; [reflexivity|]. split; [reflexivity|]. split; [exact Hbody|].
    destruct (Hrest (reach_step _ _ _ _ (reach_init _ _ _) eq_refl) eq_refl 5%nat)
      as (final & Hfinal & Hstop & Hpre & Hvis & Hno & Hnext).
    + apply (bool_decide_unpack _). vm_compute. reflexivity.
    + destruct (Hnext "https://site.com/specials" ["https://site.com/menu"] eq_refl)
        as [Hv Hs].
      * apply (bool_decide_unpack _). vm_compute. reflexivity.
      * exists final.
        split_and!;
          [exact Hfinal | exact Hstop | exact Hpre | exact Hvis | exact Hno | exact Hv |].
        apply (Hs "https://site.com/specials" "Happy hour 4 to 7"
                  ["/drinks"; "/menu"; "/specials"]); reflexivity.
Defined.
